(** * kw-timetable: the timetable layout engine

    A shallow embedding of [src/utils/parseLectureTime.ts] and of the pure
    part of [src/components/TimetableView.tsx] (the two [merge...] stages and
    the body of the [useMemo] calls), with the properties of the layout
    pipeline proved over it; then of the code around them: the printing of
    clock times, [src/utils/courseCodeToColor.ts] and the state handlers of
    [src/components/TimetableSearch.tsx].

    Conventions of the embedding.
    - A JavaScript string is the list of its UTF-16 code units ([list N]).
    - A JavaScript [number] that counts minutes is an exact integer ([Z]; a
      double is exact on the integers below 2^53); the one place where the
      source can produce [NaN] from integers ([timeToMinutes]) is modelled
      with [option Z], [None] being [NaN].  Percentages are exact rationals
      ([Q]).
    - The parser takes a string, as its type says, so that [?? ''] does
      nothing.
    - A [Map] is an association list in key-insertion order, which is the
      order in which JavaScript iterates it; [Array.prototype.sort] is a
      stable insertion sort.
    - Objects that are mutated through several references (the groups of
      [mergeOverlappingSlots]) live in an arena and are named by handles.
    - A [Set] of days or of strings is the list of its elements in the order
      of their insertion.
    - A 32-bit integer is a [Z] with its wrap-around written out. *)

From stdpp Require Import base list sorting gmap.
From Stdlib Require Import ZArith NArith QArith Qminmax Lia Lqa.
Close Scope Q_scope.
Open Scope Z_scope.

(** ** JavaScript strings and the built-ins the parser uses *)

Module JS.

Abbreviation jsstring := (list N) (only parsing).

(** [WhiteSpace] and [LineTerminator] code units: what [\s] matches and what
    [String.prototype.trim] strips. *)
Definition isWhiteSpace (c : N) : bool :=
  ((9 <=? c) && (c <=? 13) || (c =? 32) || (c =? 160) || (c =? 5760)
   || (8192 <=? c) && (c <=? 8202) || (c =? 8232) || (c =? 8233)
   || (c =? 8239) || (c =? 8287) || (c =? 12288) || (c =? 65279))%N.

(** [\d]: the ASCII digits. *)
Definition isDigit (c : N) : bool := ((48 <=? c) && (c <=? 57))%N.

Definition digitValue (c : N) : Z := Z.of_N (c - 48).

Fixpoint trimStart (s : jsstring) : jsstring :=
  match s with
  | [] => []
  | c :: r => if isWhiteSpace c then trimStart r else s
  end.

Definition trimEnd (s : jsstring) : jsstring := rev (trimStart (rev s)).

(** [s.trim()] *)
Definition trim (s : jsstring) : jsstring := trimEnd (trimStart s).

(** [s.split(/\s+/)].  [piece] is the text since the end of the last
    separator; [inSep] tells that the scan is inside a (greedy) separator
    match.  A separator at the very start or end leaves an empty piece, as
    in JavaScript. *)
Fixpoint splitWs_go (inSep : bool) (piece : jsstring) (s : jsstring)
  : list jsstring :=
  match s with
  | [] => [piece]
  | c :: r =>
      if isWhiteSpace c then
        if inSep then splitWs_go true [] r
        else piece :: splitWs_go true [] r
      else splitWs_go false (piece ++ [c]) r
  end.

Definition splitWs (s : jsstring) : list jsstring := splitWs_go false [] s.

(** The value of the longest prefix of decimal digits, read left to right. *)
Fixpoint digitPrefixValue (acc : Z) (s : jsstring) : Z :=
  match s with
  | [] => acc
  | c :: r => if isDigit c then digitPrefixValue (acc * 10 + digitValue c) r
              else acc
  end.

(** [parseInt(s, 10)]; [None] is [NaN]. *)
Definition parseInt10 (s : jsstring) : option Z :=
  let s1 := trimStart s in
  let '(sign, s2) :=
    match s1 with
    | c :: r => if (c =? 45)%N then (-1, r)
                else if (c =? 43)%N then (1, r) else (1, s1)
    | [] => (1, s1)
    end in
  match s2 with
  | c :: _ => if isDigit c then Some (sign * digitPrefixValue 0 s2) else None
  | [] => None
  end.

(** [String(k)] for a non-negative integer [k]: its decimal digits. *)
Fixpoint decimalDigits_fuel (fuel : nat) (k : N) : jsstring :=
  match fuel with
  | O => []
  | S fuel' =>
      if (k <? 10)%N then [(48 + k)%N]
      else decimalDigits_fuel fuel' (k / 10)%N ++ [(48 + k mod 10)%N]
  end.

Definition decimalDigits (k : N) : jsstring :=
  decimalDigits_fuel (S (N.to_nat (N.log2 k))) k.

End JS.
Import JS.

(** ** [src/types/timetable.ts] *)

Record TimetableEntry := mkEntry {
  구분 : jsstring;
  학정번호 : jsstring;
  과목명 : jsstring;
  분반 : jsstring;
  이수 : jsstring;
  학점 : jsstring;
  시수 : jsstring;
  담당교수 : jsstring;
  강의시간 : jsstring;
  강의유형 : jsstring
}.

(** [type DayIndex = 0 | 1 | 2 | 3 | 4 | 5 | 6] *)
Inductive DayIndex := D0 | D1 | D2 | D3 | D4 | D5 | D6.

Definition dayNumber (d : DayIndex) : Z :=
  match d with
  | D0 => 0 | D1 => 1 | D2 => 2 | D3 => 3 | D4 => 4 | D5 => 5 | D6 => 6
  end.

Global Instance DayIndex_eq_dec : EqDecision DayIndex.
Proof. solve_decision. Defined.

Global Instance TimetableEntry_eq_dec : EqDecision TimetableEntry.
Proof. solve_decision. Defined.

Record LectureSlot := mkLectureSlot {
  day : DayIndex;
  startMinutes : Z;
  endMinutes : Z
}.

(** ** [src/utils/parseLectureTime.ts] *)

Module Parser.

(** The code units of 월 화 수 목 금 토 일. *)
Definition 월 : N := 0xC6D4.
Definition 화 : N := 0xD654.
Definition 수 : N := 0xC218.
Definition 목 : N := 0xBAA9.
Definition 금 : N := 0xAE08.
Definition 토 : N := 0xD1A0.
Definition 일 : N := 0xC77C.

(** [DAY_MAP[label]]; [None] is [undefined]. *)
Definition DAY_MAP (label : jsstring) : option DayIndex :=
  match label with
  | [c] =>
      if (c =? 월)%N then Some D0 else if (c =? 화)%N then Some D1
      else if (c =? 수)%N then Some D2 else if (c =? 목)%N then Some D3
      else if (c =? 금)%N then Some D4 else if (c =? 토)%N then Some D5
      else if (c =? 일)%N then Some D6 else None
  | _ => None
  end.

Definition PERIOD_START_MINUTES : Z := 7 * 60 + 30.
Definition PERIOD_DURATION_MINUTES : Z := 90.

Definition periodToMinutes (period : Z) : Z * Z :=
  let start := PERIOD_START_MINUTES + period * PERIOD_DURATION_MINUTES in
  (start, start + PERIOD_DURATION_MINUTES).

Definition isDayLabel (c : N) : bool :=
  ((c =? 월) || (c =? 화) || (c =? 수) || (c =? 목) || (c =? 금)
   || (c =? 토) || (c =? 일))%N.

(** [pair.match(/^(월|화|수|목|금|토|일)(\d+)$/)]: the two capture groups, or
    [None] when the token does not match. *)
Definition matchPair (pair : jsstring) : option (jsstring * jsstring) :=
  match pair with
  | c :: ds =>
      if isDayLabel c && negb (bool_decide (ds = [])) && forallb isDigit ds
      then Some ([c], ds) else None
  | [] => None
  end.

(** One turn of the [for (const pair of pairs)] loop. *)
Definition parseStep (slots : list LectureSlot) (pair : jsstring)
  : list LectureSlot :=
  match matchPair pair with
  | None => slots
  | Some (dayLabel, digits) =>
      match DAY_MAP dayLabel, parseInt10 digits with
      | Some d, Some period =>
          if period <? 0 then slots
          else
            let '(start, end_) := periodToMinutes period in
            slots ++ [ {| day := d; startMinutes := start;
                          endMinutes := end_ |} ]
      | _, _ => slots
      end
  end.

Definition parseLectureTime (raw : jsstring) : list LectureSlot :=
  let trimmed := trim raw in
  match trimmed with
  | [] => []
  | _ => fold_left parseStep (splitWs trimmed) []
  end.

(** *** The parser as the specification words it *)

(** The whitespace-separated tokens of a string: its maximal runs of
    non-blank characters, built from the right. *)
Fixpoint specTokens (s : jsstring) : list jsstring :=
  match s with
  | [] => []
  | c :: r =>
      let ts := specTokens r in
      if isWhiteSpace c then ts
      else
        match head r, ts with
        | Some c', t :: ts' =>
            if isWhiteSpace c' then [c] :: ts else (c :: t) :: ts'
        | _, _ => [c] :: ts
        end
  end.

(** The seven recognised day labels and their Day Index. *)
Definition dayLabels : list (N * DayIndex) :=
  [(월, D0); (화, D1); (수, D2); (목, D3); (금, D4); (토, D5); (일, D6)].

Definition dayOfLabel (c : N) : option DayIndex :=
  snd <$> List.find (λ p, (fst p =? c)%N) dayLabels.

(** The number a string of decimal digits denotes. *)
Definition decimalValue (ds : jsstring) : Z :=
  foldr (λ d v, digitValue d + 10 * v) 0 (rev ds).

Definition specSlot (token : jsstring) : option LectureSlot :=
  match token with
  | c :: ds =>
      match dayOfLabel c with
      | Some d =>
          if negb (bool_decide (ds = [])) && forallb isDigit ds then
            let start := 450 + decimalValue ds * 90 in
            Some {| day := d; startMinutes := start;
                    endMinutes := start + 90 |}
          else None
      | None => None
      end
  | [] => None
  end.

Definition parseSpec (raw : jsstring) : list LectureSlot :=
  omap specSlot (specTokens (trim raw)).

End Parser.
Import Parser.

(** ** [src/components/TimetableView.tsx]: the slot consolidator *)

Module View.

Definition DEFAULT_START_MINUTES : Z := 9 * 60.
Definition DEFAULT_END_MINUTES : Z := 18 * 60.
Definition DEFAULT_DAYS : list DayIndex := [D0; D1; D2; D3; D4].

Definition PERIOD_START_MINUTES : Z := 9 * 60.
Definition PERIOD_DURATION : Z := 90.

(** [type SlotInput = { entry; day; start; end }] (fields prefixed, [end]
    being a keyword). *)
Record SlotInput := mkSlot {
  s_entry : TimetableEntry;
  s_day : DayIndex;
  s_start : Z;
  s_end : Z
}.

(** *** The two library pieces: an insertion-ordered [Map] whose values are
    arrays, and the stable [sort]. *)

Section OrderedMap.
Context {K V : Type} `{EqDecision K}.

(** [if (!m.has(k)) m.set(k, []); m.get(k).push(v)] *)
Fixpoint pushTo (k : K) (v : V) (m : list (K * list V))
  : list (K * list V) :=
  match m with
  | [] => [(k, [v])]
  | (k', vs) :: r =>
      if decide (k' = k) then (k', vs ++ [v]) :: r
      else (k', vs) :: pushTo k v r
  end.

Definition groupBy (f : V → K) (l : list V) : list (K * list V) :=
  fold_left (λ m v, pushTo (f v) v m) l [].
End OrderedMap.

Section Sort.
Context {A : Type} (f : A → Z).

Fixpoint insertBy (x : A) (l : list A) : list A :=
  match l with
  | [] => [x]
  | y :: r => if f x <? f y then x :: l else y :: insertBy x r
  end.

(** [l.sort((a, b) => f(a) - f(b))] *)
Definition sortBy (l : list A) : list A :=
  fold_left (λ acc x, insertBy x acc) l [].
End Sort.

(** *** Stage A: [mergeConsecutiveSlots] *)

Definition dash : N := 45.

(** [`${day}`] for a Day Index: one digit. *)
Definition dayString (d : DayIndex) : jsstring := [(48 + Z.to_N (dayNumber d))%N].

(** [`${s.entry.학정번호}-${s.entry.분반}-${s.day}`] *)
Definition key (s : SlotInput) : jsstring :=
  학정번호 (s_entry s) ++ [dash] ++ 분반 (s_entry s) ++ [dash]
    ++ dayString (s_day s).

(** The scan over [group[1..]], with the running interval. *)
Fixpoint mergeRuns (entry : TimetableEntry) (d : DayIndex)
    (runStart runEnd : Z) (rest : list SlotInput) : list SlotInput :=
  match rest with
  | [] => [mkSlot entry d runStart runEnd]
  | g :: rest' =>
      if s_start g =? runEnd then mergeRuns entry d runStart (s_end g) rest'
      else mkSlot entry d runStart runEnd
             :: mergeRuns entry d (s_start g) (s_end g) rest'
  end.

(** The body of [for (const group of byEntryDay.values())].  A group is
    never empty (lemma [groupBy_groups_nonempty]), so the first branch is
    not taken. *)
Definition mergeGroup (group : list SlotInput) : list SlotInput :=
  match sortBy s_start group with
  | [] => []
  | g0 :: rest => mergeRuns (s_entry g0) (s_day g0) (s_start g0) (s_end g0) rest
  end.

Definition mergeConsecutiveSlots (slots : list SlotInput) : list SlotInput :=
  flat_map (λ kv, mergeGroup (snd kv)) (groupBy key slots).

(** *** Stage B: [mergeOverlappingSlots] *)

Definition overlaps (aStart aEnd bStart bEnd : Z) : bool :=
  (aStart <? bEnd) && (bStart <? aEnd).

(** [type Group = { start; end; slots }] *)
Record Group := mkGroup {
  g_start : Z;
  g_end : Z;
  g_slots : list SlotInput
}.

(** The group objects live in an arena, in creation order; the array
    [groups] and the array [overlapping] hold handles (indices into the
    arena), so that a write through [first] is seen through [groups]. *)
Definition GroupStore : Type := list Group * list nat.

Definition overlapsGroup (arena : list Group) (s : SlotInput) (h : nat) : bool :=
  match arena !! h with
  | Some g => overlaps (s_start s) (s_end s) (g_start g) (g_end g)
  | None => false
  end.

(** [first.slots.push(s); first.start = min(..); first.end = max(..)] *)
Definition addSlot (s : SlotInput) (first : Group) : Group :=
  {| g_start := Z.min (g_start first) (s_start s);
     g_end := Z.max (g_end first) (s_end s);
     g_slots := g_slots first ++ [s] |}.

(** [first.slots.push(...g.slots); first.start = min(..); first.end = max(..)] *)
Definition absorb (g : Group) (first : Group) : Group :=
  {| g_start := Z.min (g_start first) (g_start g);
     g_end := Z.max (g_end first) (g_end g);
     g_slots := g_slots first ++ g_slots g |}.

(** [groups.splice(groups.indexOf(g), 1)]; [indexOf] answers -1 for an absent
    element, and [splice(-1, 1)] removes the last one. *)
Definition spliceOut (h : nat) (groups : list nat) : list nat :=
  match list_find (λ x, x = h) groups with
  | Some (i, _) => delete i groups
  | None => removelast groups
  end.

(** One turn of [for (let i = 1; i < overlapping.length; i++)]. *)
Definition absorbStep (first : nat) (st : GroupStore) (h : nat) : GroupStore :=
  let '(arena, groups) := st in
  match arena !! h with
  | Some g => (alter (absorb g) first arena, spliceOut h groups)
  | None => st
  end.

(** One turn of [for (const s of daySlots)]. *)
Definition placeSlot (st : GroupStore) (s : SlotInput) : GroupStore :=
  let '(arena, groups) := st in
  match List.filter (overlapsGroup arena s) groups with
  | [] =>
      (arena ++ [mkGroup (s_start s) (s_end s) [s]], groups ++ [length arena])
  | first :: others =>
      fold_left (absorbStep first) others (alter (addSlot s) first arena, groups)
  end.

(** The groups of one day, read through the handles of [groups]. *)
Definition readGroups (st : GroupStore) : list Group :=
  omap (λ h, fst st !! h) (snd st).

Definition dayGroups (daySlots : list SlotInput) : list Group :=
  readGroups (fold_left placeSlot (sortBy s_start daySlots) ([], [])).

(** [`${s.entry.학정번호}-${s.entry.분반}`] *)
Definition entryId (e : TimetableEntry) : jsstring :=
  학정번호 e ++ [dash] ++ 분반 e.

(** One turn of [for (const s of group.slots)], with the [seen] set. *)
Definition dedupStep (acc : gset (list N) * list TimetableEntry) (s : SlotInput)
  : gset (list N) * list TimetableEntry :=
  let id := entryId (s_entry s) in
  if decide (id ∈ fst acc) then acc
  else ({[ id ]} ∪ fst acc, snd acc ++ [s_entry s]).

Definition groupEntries (slots : list SlotInput) : list TimetableEntry :=
  snd (fold_left dedupStep slots (∅, [])).

Record DisplayBlock := mkBlock {
  b_day : DayIndex;
  b_start : Z;
  b_end : Z;
  b_entries : list TimetableEntry;
  b_isConflict : bool
}.

Definition emitBlock (d : DayIndex) (group : Group) : DisplayBlock :=
  let entries := groupEntries (g_slots group) in
  {| b_day := d; b_start := g_start group; b_end := g_end group;
     b_entries := entries; b_isConflict := (1 <? length entries)%nat |}.

Definition mergeOverlappingSlots (slots : list SlotInput) : list DisplayBlock :=
  flat_map (λ kv, map (emitBlock (fst kv)) (dayGroups (snd kv)))
    (groupBy s_day slots).

(** *** The grid layout: the body of [TimetableView] *)

(** Arithmetic that may meet [NaN] ([None]): an operation on [NaN] is [NaN],
    a comparison with [NaN] is false. *)
Definition lift2 {A B C : Type} (f : A → B → C) (a : option A) (b : option B)
  : option C :=
  match a, b with
  | Some x, Some y => Some (f x y)
  | _, _ => None
  end.

Definition cmp2 {A B : Type} (f : A → B → bool) (a : option A) (b : option B)
  : bool :=
  match a, b with
  | Some x, Some y => f x y
  | _, _ => false
  end.

Definition Qltb (x y : Q) : bool :=
  match (x ?= y)%Q with Lt => true | _ => false end.

Definition colon : N := 58.

(** [s.split(sep)] for a one-character separator. *)
Fixpoint splitOn (sep : N) (piece : jsstring) (s : jsstring) : list jsstring :=
  match s with
  | [] => [piece]
  | c :: r =>
      if (c =? sep)%N then piece :: splitOn sep [] r
      else splitOn sep (piece ++ [c]) r
  end.

(** [{ period, start, end }] of [getPeriodsInRange] *)
Record PeriodLabel := mkPeriod {
  period : Z;
  p_start : Z;
  p_end : Z
}.

(** One turn of [for (let p = 1; p <= 6; p++)]. *)
Definition periodInRange (startMin endMin : option Z) (p : Z)
  : option PeriodLabel :=
  let start := PERIOD_START_MINUTES + (p - 1) * PERIOD_DURATION in
  let end_ := start + PERIOD_DURATION in
  if cmp2 Z.gtb (Some end_) startMin && cmp2 Z.ltb (Some start) endMin then
    match lift2 Z.max (Some start) startMin, lift2 Z.min (Some end_) endMin with
    | Some a, Some b => Some (mkPeriod p a b)
    | _, _ => None
    end
  else None.

Definition getPeriodsInRange (startMin endMin : option Z) : list PeriodLabel :=
  omap (periodInRange startMin endMin) [1; 2; 3; 4; 5; 6].

(** [for (let m = gridStart; m <= gridEnd; m += step) labels.push(m)];
    [None] when the fuel is used up before the loop ends. *)
Fixpoint timeLabels_loop (fuel : nat) (m gridEnd : Z) (labels : list Z)
  : option (list Z) :=
  match fuel with
  | O => None
  | S fuel' =>
      if m <=? gridEnd
      then timeLabels_loop fuel' (m + 30) gridEnd (labels ++ [m])
      else Some labels
  end.

(** The [timeLabels] memo.  With a [NaN] bound the loop test is false at
    once and so is [labels.length > 0]. *)
Definition timeLabels (gridStart gridEnd : option Z) : option (list Z) :=
  match gridStart, gridEnd with
  | Some gs, Some ge =>
      labels ← timeLabels_loop (S (Z.to_nat ((ge - gs) `div` 30 + 1))) gs ge [];
      Some (match last labels with
            | Some l => if l <? ge then labels ++ [ge] else labels
            | None => labels
            end)
  | _, _ => Some []
  end.

Record ViewState := mkView {
  customStart : option (list N);
  customEnd : option (list N);
  (** a [Set<DayIndex>], as the sequence of its elements in insertion order *)
  includedDays : option (list DayIndex)
}.

(** What the first loop of the memo accumulates. *)
Record Collected := mkCollected {
  allSlots : list SlotInput;
  minStart : Z;
  maxEnd : Z;
  daysSet : list DayIndex
}.

(** [set.add(d)] *)
Definition setAdd (d : DayIndex) (set : list DayIndex) : list DayIndex :=
  if decide (d ∈ set) then set else set ++ [d].

Definition collectSlot (entry : TimetableEntry) (acc : Collected)
    (slot : LectureSlot) : Collected :=
  {| allSlots := allSlots acc
       ++ [mkSlot entry (day slot) (startMinutes slot) (endMinutes slot)];
     minStart := Z.min (minStart acc) (startMinutes slot);
     maxEnd := Z.max (maxEnd acc) (endMinutes slot);
     daysSet := setAdd (day slot) (daysSet acc) |}.

Definition collectEntry (acc : Collected) (entry : TimetableEntry) : Collected :=
  fold_left (collectSlot entry) (parseLectureTime (강의시간 entry)) acc.

Definition collect (entries : list TimetableEntry) : Collected :=
  fold_left collectEntry entries
    (mkCollected [] DEFAULT_START_MINUTES DEFAULT_END_MINUTES DEFAULT_DAYS).

(** A display block with its position: [{ ...s, topPercent, heightPercent }]. *)
Record PositionedBlock := mkPositioned {
  block : DisplayBlock;
  topPercent : option Q;
  heightPercent : option Q
}.

Definition totalMinutesOf (gridStart gridEnd : option Z) : option Z :=
  lift2 Z.max (Some 1) (lift2 Z.sub gridEnd gridStart).

(** [Math.min(100, Math.max(0, (x / totalMinutes) * 100))] *)
Definition clampPercent (x totalMinutes : option Z) : option Q :=
  lift2 Qmin (Some 100%Q)
    (lift2 Qmax (Some 0%Q)
       (lift2 Qmult (lift2 Qdiv (inject_Z <$> x) (inject_Z <$> totalMinutes))
          (Some 100%Q))).

(** The function passed to [.map] in the memo. *)
Definition positionBlock (gridStart gridEnd : option Z) (s : DisplayBlock)
  : PositionedBlock :=
  let totalMinutes := totalMinutesOf gridStart gridEnd in
  let topPercent :=
    clampPercent (lift2 Z.sub (lift2 Z.max (Some (b_start s)) gridStart) gridStart)
      totalMinutes in
  let endPercent :=
    clampPercent (lift2 Z.sub (lift2 Z.min (Some (b_end s)) gridEnd) gridStart)
      totalMinutes in
  let heightPercent := lift2 Qmax (Some 0%Q) (lift2 Qminus endPercent topPercent) in
  mkPositioned s topPercent heightPercent.

Definition positionBlocks (gridStart gridEnd : option Z) (days : list DayIndex)
    (displaySlots : list DisplayBlock) : list PositionedBlock :=
  List.filter (λ b, cmp2 Qltb (Some 0%Q) (heightPercent b))
    (map (positionBlock gridStart gridEnd)
       (List.filter (λ s, bool_decide (b_day s ∈ days)) displaySlots)).

(** Everything the component computes before it renders. *)
Record Grid := mkGrid {
  gridStart : option Z;
  gridEnd : option Z;
  days : list DayIndex;
  blocks : list PositionedBlock;
  gridTimeLabels : option (list Z);
  periodLabels : list PeriodLabel
}.

Section Layout.
(** The built-in [Number(s)] on the strings of a clock time; [None] is
    [NaN]. *)
Variable Number : list N → option Z.

(** [const [h, m] = time.split(':').map(Number)]: a piece that is absent is
    [undefined], and [Number.isNaN(undefined)] is false, so a time without
    a colon yields [h * 60 + undefined], which is [NaN]. *)
Definition timeToMinutes (time : jsstring) : option Z :=
  match map Number (splitOn colon [] time) with
  | [] => None
  | None :: _ => Some DEFAULT_START_MINUTES
  | Some h :: [] => None
  | Some h :: None :: _ => Some (h * 60 + 0)
  | Some h :: Some m :: _ => Some (h * 60 + m)
  end.

Definition resolveStart (view : ViewState) (c : Collected) : option Z :=
  match timeToMinutes <$> customStart view with
  | Some userStart => userStart
  | None =>
      Some (match allSlots c with
            | [] => DEFAULT_START_MINUTES
            | _ => minStart c
            end)
  end.

Definition resolveEnd (view : ViewState) (c : Collected) : option Z :=
  match timeToMinutes <$> customEnd view with
  | Some userEnd => userEnd
  | None =>
      Some (match allSlots c with
            | [] => DEFAULT_END_MINUTES
            | _ => maxEnd c
            end)
  end.

Definition resolveDays (view : ViewState) (c : Collected) : list DayIndex :=
  match includedDays view with
  | Some set => sortBy dayNumber set
  | None => sortBy dayNumber (daysSet c)
  end.

Definition layout (entries : list TimetableEntry) (view : ViewState) : Grid :=
  let c := collect entries in
  let gridStart := resolveStart view c in
  let gridEnd := resolveEnd view c in
  let days := resolveDays view c in
  let mergedSlots := mergeConsecutiveSlots (allSlots c) in
  let displaySlots := mergeOverlappingSlots mergedSlots in
  {| gridStart := gridStart;
     gridEnd := gridEnd;
     days := days;
     blocks := positionBlocks gridStart gridEnd days displaySlots;
     gridTimeLabels := timeLabels gridStart gridEnd;
     periodLabels := getPeriodsInRange gridStart gridEnd |}.
End Layout.

End View.
Import View.

(** ** Vocabulary of the statements *)

Module Notions.

(** The list holding a piece unless the piece is empty. *)
Definition nonEmptyPiece (piece : jsstring) : list jsstring :=
  if bool_decide (piece = []) then [] else [piece].

Definition isNonEmpty (piece : jsstring) : bool := negb (bool_decide (piece = [])).

(** The distinct elements of a list, in the order of their first occurrence. *)
Definition firstSeen {K : Type} `{EqDecision K} (l : list K) : list K :=
  fold_left (λ acc k, if decide (k ∈ acc) then acc else acc ++ [k]) l [].

(** The elements of [l] that [f] sends to [k]. *)
Definition withKey {K V : Type} `{EqDecision K} (f : V → K) (k : K) (l : list V)
  : list V :=
  List.filter (λ v, bool_decide (f v = k)) l.

(** Slots as intervals. *)
Definition wellFormed (s : SlotInput) : Prop := s_start s < s_end s.

Definition slotsOverlap (a b : SlotInput) : Prop :=
  overlaps (s_start a) (s_end a) (s_start b) (s_end b) = true.

(** Order by the sort key. *)
Definition keyLe {A : Type} (f : A → Z) (a b : A) : Prop := f a <= f b.





(** Deduplication that keeps, for every identifier, the first element that
    carries it: read from the end, an element is dropped when its identifier
    occurs again nearer to the start. *)
Fixpoint keepFirstBy_rev {A K : Type} `{EqDecision K} (id : A → K) (rl : list A)
  : list A :=
  match rl with
  | [] => []
  | x :: earlier =>
      if decide (id x ∈ map id earlier) then keepFirstBy_rev id earlier
      else keepFirstBy_rev id earlier ++ [x]
  end.

Definition keepFirstBy {A K : Type} `{EqDecision K} (id : A → K) (l : list A)
  : list A :=
  keepFirstBy_rev id (rev l).

(** The test of [groups.filter] on a group. *)
Definition overlapsEnvelope (s : SlotInput) (g : Group) : bool :=
  overlaps (s_start s) (s_end s) (g_start g) (g_end g).

Definition singletonGroup (s : SlotInput) : Group :=
  mkGroup (s_start s) (s_end s) [s].

(** The envelope of [g] ends before that of [g'] starts. *)
Definition groupPrecedes (g g' : Group) : Prop := g_end g <= g_start g'.

(** The envelope of a group is the least start and the greatest end of its
    members. *)
Definition spansMembers (g : Group) : Prop :=
  g_slots g ≠ []
  ∧ Forall (λ s, g_start g <= s_start s ∧ s_end s <= g_end g) (g_slots g)
  ∧ (∃ s, s ∈ g_slots g ∧ s_start s = g_start g)
  ∧ (∃ s, s ∈ g_slots g ∧ s_end s = g_end g).

(** Two intervals of [l] are connected when a chain of intervals of [l], each
    overlapping the next, leads from one to the other. *)
Definition connectedIn (l : list SlotInput) : relation SlotInput :=
  rtc (λ x y, x ∈ l ∧ y ∈ l ∧ slotsOverlap x y).

Definition groupConnected (g : Group) : Prop :=
  ∀ a b, a ∈ g_slots g → b ∈ g_slots g → connectedIn (g_slots g) a b.

Definition blocksOverlap (b b' : DisplayBlock) : Prop :=
  overlaps (b_start b) (b_end b) (b_start b') (b_end b') = true.

(** The store [st] holds, under the handles of its array, the groups [V]. *)
Definition views (st : GroupStore) (V : list Group) : Prop :=
  Forall2 (λ h g, fst st !! h = Some g) (snd st) V.

(** What holds of the groups once the slots [p] have been placed. *)
Definition groupsOf (p : list SlotInput) (V : list Group) : Prop :=
  concat (map g_slots V) = p
  ∧ Forall spansMembers V
  ∧ Forall groupConnected V
  ∧ StronglySorted groupPrecedes V.

(** [m] is the least (greatest) element of [l]. *)
Definition isMinimumOf (m : Z) (l : list Z) : Prop := m ∈ l ∧ Forall (λ x, m <= x) l.
Definition isMaximumOf (m : Z) (l : list Z) : Prop := m ∈ l ∧ Forall (λ x, x <= m) l.



(** The (course code, section code) of an entry. *)
Definition entryPair (e : TimetableEntry) : list N * list N := (학정번호 e, 분반 e).

End Notions.
Import Notions.

(** ** Sample data *)

Module Samples.

Definition entryOf (code section schedule : jsstring) : TimetableEntry :=
  mkEntry [] code [] section [] [] [] [] schedule [].

(** Course "A", section "1", Tuesday periods 2 and 3: "화2 화3". *)
Definition courseA : TimetableEntry :=
  entryOf [65]%N [49]%N [화; 50; 32; 화; 51]%N.

(** Course "B", section "1", Tuesday period 2: "화2". *)
Definition courseB : TimetableEntry := entryOf [66]%N [49]%N [화; 50]%N.

Definition a2 : SlotInput := mkSlot courseA D1 630 720.
Definition a3 : SlotInput := mkSlot courseA D1 720 810.
Definition b2 : SlotInput := mkSlot courseB D1 630 720.

(** The chain A = [0,100), B = [50,150), C = [140,200) of one day, and two
    intervals that touch. *)
Definition chainA : SlotInput := mkSlot courseA D0 0 100.
Definition chainB : SlotInput := mkSlot courseB D0 50 150.
Definition chainC : SlotInput := mkSlot courseA D0 140 200.
Definition touchA : SlotInput := mkSlot courseA D0 0 100.
Definition touchB : SlotInput := mkSlot courseB D0 100 200.

(** An entry whose schedule repeats a token: "월4 월4". *)
Definition repeatedEntry : TimetableEntry :=
  entryOf [65]%N [49]%N [월; 52; 32; 월; 52]%N.


(** A stand-in for the built-in [Number] on the pieces of a clock string: it
    reads decimal digits. *)
Definition digitsNumber (s : jsstring) : option Z := parseInt10 s.

(** One course section entered twice, "화2" and "화3"; and two courses that
    both meet on "월1". *)
Definition halfA2 : TimetableEntry := entryOf [65]%N [49]%N [화; 50]%N.
Definition halfA3 : TimetableEntry := entryOf [65]%N [49]%N [화; 51]%N.
Definition courseX : TimetableEntry := entryOf [88]%N [49]%N [월; 49]%N.
Definition courseY : TimetableEntry := entryOf [89]%N [49]%N [월; 49]%N.

(** The consolidator on the slots of a list of entries. *)
Definition consolidate (entries : list TimetableEntry) : list DisplayBlock :=
  mergeOverlappingSlots (mergeConsecutiveSlots (allSlots (collect entries))).

Definition plainView : ViewState := mkView None None None.

(** Only Tuesday is shown. *)
Definition tuesdayView : ViewState := mkView None None (Some [D1]).


End Samples.
Import Samples.

(** ** The rest of the two files and the code around them *)

(** [DAY_NAMES] of [parseLectureTime.ts] and the helpers of
    [TimetableView.tsx] that print a time. *)
Module Display.

(** [DAY_NAMES[d]] *)
Definition DAY_NAMES (d : DayIndex) : jsstring :=
  match d with
  | D0 => [월] | D1 => [화] | D2 => [수] | D3 => [목] | D4 => [금]
  | D5 => [토] | D6 => [일]
  end.

(** [String(z)] for an integer. *)
Definition stringOfInt (z : Z) : jsstring :=
  if z <? 0 then 45%N :: decimalDigits (Z.to_N (- z))
  else decimalDigits (Z.to_N z).

(** [s.padStart(2, '0')] *)
Definition padStart2 (s : jsstring) : jsstring :=
  repeat 48%N (2 - length s) ++ s.

(** [Math.floor(min / 60)] is the floored quotient, [min % 60] the remainder
    with the sign of [min]. *)
Definition minutesToTime (min : Z) : jsstring :=
  let h := min `div` 60 in
  let m := min `rem` 60 in
  padStart2 (stringOfInt h) ++ [colon] ++ padStart2 (stringOfInt m).

End Display.
Import Display.

(** [src/utils/courseCodeToColor.ts] *)
Module Color.

(** [ToInt32]: the signed 32-bit integer congruent to [z]. *)
Definition toInt32 (z : Z) : Z := (z + 2 ^ 31) `mod` 2 ^ 32 - 2 ^ 31.

(** One turn of the loop of [simpleHash]:
    [h = (h << 5) - h + str.charCodeAt(i); h |= 0]. *)
Definition hashStep (h : Z) (c : N) : Z :=
  let h1 := toInt32 (Z.shiftl (toInt32 h) 5) - h + Z.of_N c in
  Z.lor (toInt32 h1) 0.

Definition simpleHash (str : jsstring) : Z := fold_left hashStep str 0.

Record HSL := mkHSL { hsl_h : Z; hsl_s : Z; hsl_l : Z }.

(** [Math.abs(hash) % 360] *)
Definition courseCodeToColor (code : jsstring) : HSL :=
  let hash := simpleHash code in
  mkHSL (Z.abs hash `rem` 360) 52 48.

End Color.
Import Color.

(** [src/components/TimetableSearch.tsx]: the cart, the checked entries and
    the timetables saved by priority.  A handler is modelled by the state that
    its updates leave, each handler running on the state of the last render. *)
Module Search.

(** The code unit of the vertical bar. *)
Definition bar : N := 124.

(** [a === b] on strings. *)
Definition strictEq (a b : jsstring) : bool := bool_decide (a = b).

Definition isSameEntry (a b : TimetableEntry) : bool :=
  strictEq (학정번호 a) (학정번호 b)
  && strictEq (분반 a) (분반 b)
  && strictEq (강의시간 a) (강의시간 b)
  && strictEq (담당교수 a) (담당교수 b).

Definition entryKey (entry : TimetableEntry) : jsstring :=
  학정번호 entry ++ [bar] ++ 분반 entry ++ [bar] ++ 강의시간 entry ++ [bar]
    ++ 담당교수 entry.

(** A [Set<string>]: its elements in the order of their insertion. *)
Definition setHas (k : jsstring) (set : list jsstring) : bool :=
  bool_decide (k ∈ set).

Definition setAddKey (k : jsstring) (set : list jsstring) : list jsstring :=
  if decide (k ∈ set) then set else set ++ [k].

Definition setDelete (k : jsstring) (set : list jsstring) : list jsstring :=
  List.filter (λ x, negb (bool_decide (x = k))) set.

(** [new Set(array)] *)
Definition setOf (l : list jsstring) : list jsstring :=
  fold_left (λ set k, setAddKey k set) l [].

(** [type Priority = 1 | 2 | 3 | 4 | 5] *)
Inductive Priority := P1 | P2 | P3 | P4 | P5.

#[export] Instance Priority_eq_dec : EqDecision Priority.
Proof. solve_decision. Defined.

Definition timetableCheckedFromSaved (saved : list jsstring)
    (cart : list TimetableEntry) : list jsstring :=
  let cartKeys := setOf (map entryKey cart) in
  setOf (List.filter (λ k, setHas k cartKeys) saved).

(** The state of the component; [savedTimetables] has a list for every
    priority, as [loadFromStorage] returns it. *)
Record SearchState := mkState {
  cart : list TimetableEntry;
  currentPriority : Priority;
  savedTimetables : Priority → list jsstring;
  timetableChecked : list jsstring
}.

(** The initial values of the [useState] hooks, from what was loaded. *)
Definition initialState (loadedCart : list TimetableEntry) (p : Priority)
    (saved : Priority → list jsstring) : SearchState :=
  mkState loadedCart p saved (timetableCheckedFromSaved (saved p) loadedCart).

(** [{ ...savedTimetables, [currentPriority]: Array.from(timetableChecked) }] *)
Definition withCurrent (st : SearchState) : Priority → list jsstring :=
  λ p, if decide (p = currentPriority st) then timetableChecked st
       else savedTimetables st p.

(** The tables that [saveToStorage] writes. *)
Definition toSave (st : SearchState) : Priority → list jsstring := withCurrent st.

Definition switchPriority (newPriority : Priority) (st : SearchState)
  : SearchState :=
  if decide (newPriority = currentPriority st) then st
  else
    let updated := withCurrent st in
    mkState (cart st) newPriority updated
      (timetableCheckedFromSaved (updated newPriority) (cart st)).

Definition toggleCart (entry : TimetableEntry) (st : SearchState) : SearchState :=
  let prev := cart st in
  let exists_ := existsb (λ c, isSameEntry c entry) prev in
  if exists_ then
    mkState (List.filter (λ c, negb (isSameEntry c entry)) prev)
      (currentPriority st) (savedTimetables st)
      (setDelete (entryKey entry) (timetableChecked st))
  else
    mkState (prev ++ [entry]) (currentPriority st) (savedTimetables st)
      (setAddKey (entryKey entry) (timetableChecked st)).

Definition removeFromCart (entry : TimetableEntry) (st : SearchState)
  : SearchState :=
  mkState (List.filter (λ c, negb (isSameEntry c entry)) (cart st))
    (currentPriority st) (savedTimetables st)
    (setDelete (entryKey entry) (timetableChecked st)).

Definition toggleTimetable (entry : TimetableEntry) (st : SearchState)
  : SearchState :=
  let key := entryKey entry in
  let prev := timetableChecked st in
  mkState (cart st) (currentPriority st) (savedTimetables st)
    (if setHas key prev then setDelete key prev else setAddKey key prev).

(** ["custom-"] *)
Definition customPrefix : jsstring := [99; 117; 115; 116; 111; 109; 45]%N.

Definition startsWith (s prefix : jsstring) : bool :=
  bool_decide (take (length prefix) s = prefix).

Definition isCustomEntry (entry : TimetableEntry) : bool :=
  startsWith (학정번호 entry) customPrefix.

(** [unique] is the text of
    [`${Date.now()}-${Math.random().toString(36).slice(2, 9)}`]. *)
Definition createCustomEntry (unique : jsstring) (과목명' 강의시간' 학점' : jsstring)
  : TimetableEntry :=
  {| 구분 := []; 학정번호 := customPrefix ++ unique; 과목명 := trim 과목명';
     분반 := []; 이수 := []; 학점 := trim 학점'; 시수 := []; 담당교수 := [];
     강의시간 := trim 강의시간'; 강의유형 := [] |}.

(** The cart and the checked keys after [addCustomEntry]; the three fields of
    the form are the arguments. *)
Definition addCustomEntry (unique customTitle customTime customCredits : jsstring)
    (st : SearchState) : SearchState :=
  let title := trim customTitle in
  if bool_decide (title = []) then st
  else
    let entry := createCustomEntry unique title customTime customCredits in
    mkState (cart st ++ [entry]) (currentPriority st) (savedTimetables st)
      (setAddKey (entryKey entry) (timetableChecked st)).

Definition entriesOnTimetable (st : SearchState) : list TimetableEntry :=
  List.filter (λ e, setHas (entryKey e) (timetableChecked st)) (cart st).

End Search.
Import Search.

(** Further vocabulary. *)
Module MoreNotions.


(** The polynomial of base 31 over the code units. *)
Definition polyHash (str : jsstring) : Z :=
  fold_left (λ h c, 31 * h + Z.of_N c) str 0.


(** The output interval [o] covers the slot [s]. *)
Definition covers (o s : SlotInput) : Prop :=
  s_start o <= s_start s ∧ s_end s <= s_end o.


(** [x] minutes as a percentage of [total] minutes. *)
Definition pct (x total : Z) : Q := (inject_Z x / inject_Z total * 100)%Q.

(** No bar in the three fields that precede a bar in the key of an entry. *)
Definition barFree (e : TimetableEntry) : Prop :=
  (bar ∉ 학정번호 e) ∧ (bar ∉ 분반 e) ∧ (bar ∉ 강의시간 e).

(** The checked keys are a set, and each is the key of an entry of the cart. *)
Definition consistent (st : SearchState) : Prop :=
  NoDup (timetableChecked st)
  ∧ ∀ k, k ∈ timetableChecked st → ∃ c, c ∈ cart st ∧ entryKey c = k.

(** The states that the handlers of the component lead to, from any loaded
    cart, priority and saved tables.  The box of [toggleTimetable] is drawn
    for the entries of the cart only. *)
Inductive reachable : SearchState → Prop :=
| reach_initial loadedCart p saved : reachable (initialState loadedCart p saved)
| reach_switchPriority st p : reachable st → reachable (switchPriority p st)
| reach_toggleCart st e : reachable st → reachable (toggleCart e st)
| reach_removeFromCart st e : reachable st → reachable (removeFromCart e st)
| reach_toggleTimetable st e :
    reachable st → e ∈ cart st → reachable (toggleTimetable e st)
| reach_addCustomEntry st u title time credits :
    reachable st → reachable (addCustomEntry u title time credits st).

(** No interval of the list starts where the one before it ends. *)
Fixpoint unmerged (l : list SlotInput) : Prop :=
  match l with
  | o :: (o' :: _) as tail => s_start o' ≠ s_end o ∧ unmerged tail
  | _ => True
  end.

(** The blocks of the entries, as the layout computes them. *)
Definition displayBlocks (entries : list TimetableEntry) : list DisplayBlock :=
  mergeOverlappingSlots (mergeConsecutiveSlots (allSlots (collect entries))).

End MoreNotions.
Import MoreNotions.

(** * Properties *)

(** ** The parser *)

Section ParserFacts.

Lemma digit_not_blank c : isDigit c = true → isWhiteSpace c = false.
Proof.
  unfold isDigit, isWhiteSpace. intros H.
  apply andb_true_iff in H as [H1%N.leb_le H2%N.leb_le].
  repeat (apply orb_false_iff; split);
    try apply andb_false_iff; try (apply N.eqb_neq; lia);
    try (right; apply N.leb_gt; lia); try (left; apply N.leb_gt; lia).
Qed.


Lemma DAY_MAP_dayOfLabel c : DAY_MAP [c] = dayOfLabel c.
Proof.
  unfold DAY_MAP, dayOfLabel, dayLabels. cbn [List.find fst snd].
  rewrite !(N.eqb_sym _ c).
  repeat (destruct (N.eqb c _); [reflexivity |]). reflexivity.
Qed.

Lemma isDayLabel_dayOfLabel c :
  isDayLabel c = true ↔ is_Some (dayOfLabel c).
Proof.
  rewrite <- DAY_MAP_dayOfLabel. unfold isDayLabel, DAY_MAP.
  repeat (destruct (N.eqb c _); [cbn; split; eauto |]).
  cbn. split; [discriminate | intros [? ?]; discriminate].
Qed.

Lemma decimalValue_snoc ds d :
  decimalValue (ds ++ [d]) = digitValue d + 10 * decimalValue ds.
Proof. unfold decimalValue. rewrite rev_app_distr. reflexivity. Qed.

Lemma decimalValue_nonneg ds : 0 <= decimalValue ds.
Proof.
  induction ds as [| d ds IH] using rev_ind; [reflexivity |].
  rewrite decimalValue_snoc. unfold digitValue. lia.
Qed.

Lemma digitPrefixValue_snoc ds d acc :
  forallb isDigit ds = true → isDigit d = true →
  digitPrefixValue acc (ds ++ [d]) = digitPrefixValue acc ds * 10 + digitValue d.
Proof.
  revert acc. induction ds as [| c ds IH]; intros acc Hds Hd; cbn.
  - rewrite Hd. reflexivity.
  - cbn in Hds. apply andb_true_iff in Hds as [Hc Hds]. rewrite Hc.
    apply IH; assumption.
Qed.

Lemma digitPrefixValue_digits ds :
  forallb isDigit ds = true → digitPrefixValue 0 ds = decimalValue ds.
Proof.
  induction ds as [| d ds IH] using rev_ind; intros H; [reflexivity |].
  rewrite forallb_app in H. apply andb_true_iff in H as [Hds Hd].
  cbn in Hd. rewrite andb_true_r in Hd.
  rewrite digitPrefixValue_snoc, decimalValue_snoc, IH by assumption. lia.
Qed.

(** [parseInt] of a non-empty string of digits is the number it denotes. *)
Lemma parseInt10_digits ds :
  ds ≠ [] → forallb isDigit ds = true → parseInt10 ds = Some (decimalValue ds).
Proof.
  intros Hne Hds. destruct ds as [| c r]; [congruence |].
  pose proof Hds as Hall. cbn in Hds.
  apply andb_true_iff in Hds as [Hc Hr].
  unfold parseInt10. cbn [trimStart]. rewrite (digit_not_blank c Hc).
  assert ((c =? 45)%N = false ∧ (c =? 43)%N = false) as [-> ->].
  { unfold isDigit in Hc. apply andb_true_iff in Hc as [H1%N.leb_le _].
    split; apply N.eqb_neq; lia. }
  rewrite Hc, (digitPrefixValue_digits _ Hall). f_equal. lia.
Qed.

(** One turn of the loop pushes what the specification says of the token. *)
Lemma parseStep_specSlot slots pair :
  parseStep slots pair = slots ++ option_list (specSlot pair).
Proof.
  unfold parseStep, matchPair, specSlot.
  destruct pair as [| c ds]; [cbn; by rewrite app_nil_r |].
  destruct (isDayLabel c) eqn:Hc; cbn [andb].
  - apply isDayLabel_dayOfLabel in Hc as [d Hd]. rewrite Hd.
    destruct (negb (bool_decide (ds = [])) && forallb isDigit ds) eqn:Hds;
      [| cbn; by rewrite app_nil_r].
    apply andb_true_iff in Hds as [Hne Hall].
    apply negb_true_iff, bool_decide_eq_false in Hne.
    rewrite DAY_MAP_dayOfLabel, Hd, (parseInt10_digits ds Hne Hall).
    pose proof (decimalValue_nonneg ds) as Hnn.
    destruct (decimalValue ds <? 0) eqn:Hneg; [apply Z.ltb_lt in Hneg; lia |].
    reflexivity.
  - destruct (dayOfLabel c) eqn:Hd; [| cbn; by rewrite app_nil_r].
    assert (isDayLabel c = true) by (apply isDayLabel_dayOfLabel; eauto).
    congruence.
Qed.

Lemma fold_parseStep pieces slots :
  fold_left parseStep pieces slots = slots ++ omap specSlot pieces.
Proof.
  revert slots. induction pieces as [| p ps IH]; intros slots; cbn.
  - by rewrite app_nil_r.
  - rewrite IH, parseStep_specSlot.
    destruct (specSlot p); cbn; by rewrite <- app_assoc.
Qed.

Lemma specTokens_nonblank_head c r :
  isWhiteSpace c = false → ∃ t ts, specTokens (c :: r) = t :: ts.
Proof.
  intros Hc. cbn. rewrite Hc.
  destruct (head r) as [c' |]; [| eauto].
  destruct (specTokens r) as [| t ts]; [eauto |].
  destruct (isWhiteSpace c'); eauto.
Qed.

(** The pieces of [split(/\s+/)] that are not empty are the tokens. *)
Lemma splitWs_go_tokens inSep piece s :
  (inSep = true → piece = []) →
  List.filter isNonEmpty (splitWs_go inSep piece s) =
    match s with
    | [] => nonEmptyPiece piece
    | c :: _ =>
        if isWhiteSpace c then nonEmptyPiece piece ++ specTokens s
        else match specTokens s with
             | t :: ts => (piece ++ t) :: ts
             | [] => []
             end
    end.
Proof.
  assert (Hne : ∀ q, List.filter isNonEmpty [q] = nonEmptyPiece q).
  { intros q. cbn. unfold isNonEmpty, nonEmptyPiece. by destruct (bool_decide (q = [])). }
  assert (Hcons : ∀ q l, List.filter isNonEmpty (q :: l)
                          = nonEmptyPiece q ++ List.filter isNonEmpty l).
  { intros q l. cbn. unfold isNonEmpty, nonEmptyPiece. by destruct (bool_decide (q = [])). }
  revert inSep piece. induction s as [| c r IH]; intros inSep piece Hsep.
  - apply Hne.
  - cbn [splitWs_go]. destruct (isWhiteSpace c) eqn:Hc.
    + assert (Hrest : List.filter isNonEmpty (splitWs_go true [] r) = specTokens r).
      { rewrite IH by done. destruct r as [| c' r']; [reflexivity |].
        destruct (isWhiteSpace c'); [reflexivity |].
        by destruct (specTokens (c' :: r')). }
      assert (Hs : specTokens (c :: r) = specTokens r) by (cbn; by rewrite Hc).
      rewrite Hs. destruct inSep.
      * rewrite (Hsep eq_refl). cbn [nonEmptyPiece bool_decide app]. exact Hrest.
      * rewrite Hcons, Hrest. reflexivity.
    + rewrite IH by discriminate.
      assert (Hp : nonEmptyPiece (piece ++ [c]) = [piece ++ [c]]).
      { unfold nonEmptyPiece. rewrite bool_decide_eq_false_2; [done |].
        by destruct piece. }
      cbn [specTokens]. rewrite Hc.
      destruct r as [| c' r']; [by rewrite Hp |].
      cbn [head]. destruct (isWhiteSpace c') eqn:Hc'.
      * rewrite Hp. by destruct (specTokens (c' :: r')).
      * destruct (specTokens_nonblank_head c' r' Hc') as (t & ts & ->).
        by rewrite <- app_assoc.
Qed.

Lemma splitWs_tokens s : List.filter isNonEmpty (splitWs s) = specTokens s.
Proof.
  unfold splitWs. rewrite splitWs_go_tokens by discriminate.
  destruct s as [| c r]; [reflexivity |].
  destruct (isWhiteSpace c); [reflexivity |]. by destruct (specTokens (c :: r)).
Qed.

Lemma omap_specSlot_nonEmpty pieces :
  omap specSlot pieces = omap specSlot (List.filter isNonEmpty pieces).
Proof.
  induction pieces as [| q l IH]; [reflexivity |].
  destruct q as [| c q']; cbn; [exact IH |]. by rewrite IH.
Qed.

Lemma parseLectureTime_parseSpec raw : parseLectureTime raw = parseSpec raw.
Proof.
  unfold parseLectureTime, parseSpec.
  destruct (trim raw) as [| c t] eqn:Ht; [reflexivity |].
  rewrite fold_parseStep, omap_specSlot_nonEmpty, splitWs_tokens. reflexivity.
Qed.






Lemma decimalDigits_fuel_S fuel k :
  decimalDigits_fuel (S fuel) k =
    if (k <? 10)%N then [(48 + k)%N]
    else decimalDigits_fuel fuel (k / 10)%N ++ [(48 + k mod 10)%N].
Proof. reflexivity. Qed.

Lemma decimalDigits_fuel_spec fuel k :
  (k < 2 ^ N.of_nat (S fuel))%N →
  let ds := decimalDigits_fuel (S fuel) k in
  ds ≠ [] ∧ forallb isDigit ds = true ∧ decimalValue ds = Z.of_N k.
Proof.
  revert k. induction fuel as [| fuel IH]; intros k Hk;
    rewrite decimalDigits_fuel_S; destruct (k <? 10)%N eqn:Hlt.
  1, 3: apply N.ltb_lt in Hlt; cbn zeta; split; [done |]; split;
    [ cbn [forallb]; unfold isDigit; rewrite andb_true_r;
      apply andb_true_iff; split; apply N.leb_le; lia
    | unfold decimalValue, digitValue; cbn [rev app foldr]; lia ].
  - apply N.ltb_ge in Hlt. cbn in Hk. lia.
  - apply N.ltb_ge in Hlt.
    assert (Hdiv : (k / 10 < 2 ^ N.of_nat (S fuel))%N).
    { rewrite (Nat2N.inj_succ (S fuel)), N.pow_succ_r' in Hk.
      apply N.Div0.div_lt_upper_bound. lia. }
    destruct (IH _ Hdiv) as (Hne & Hall & Hval). cbn zeta.
    pose proof (N.mod_lt k 10 ltac:(lia)) as Hmod.
    split; [intros Hnil; apply app_eq_nil in Hnil as [_ ?]; discriminate |].
    split.
    + rewrite forallb_app, Hall. cbn [forallb andb]. unfold isDigit.
      rewrite andb_true_r. apply andb_true_iff. split; apply N.leb_le; clear - Hmod;
        generalize dependent (k mod 10)%N; intros; lia.
    + rewrite decimalValue_snoc, Hval. unfold digitValue.
      pose proof (N.div_mod k 10 ltac:(lia)) as Hdm.
      clear - Hdm Hmod.
      generalize dependent (k mod 10)%N. generalize dependent (k / 10)%N.
      intros. lia.
Qed.

Lemma decimalDigits_spec k :
  decimalDigits k ≠ [] ∧ forallb isDigit (decimalDigits k) = true
  ∧ decimalValue (decimalDigits k) = Z.of_N k.
Proof.
  apply decimalDigits_fuel_spec.
  destruct (N.eq_dec k 0) as [-> | Hk]; [reflexivity |].
  rewrite Nat2N.inj_succ, N2Nat.id. apply N.log2_spec. lia.
Qed.



End ParserFacts.





(** ** The insertion-ordered map and the stable sort *)

Section GroupByFacts.
Context {K V : Type} `{EqDecision K} (f : V → K).

Lemma firstSeen_snoc (l : list K) k :
  firstSeen (l ++ [k]) =
    if decide (k ∈ firstSeen l) then firstSeen l else firstSeen l ++ [k].
Proof. unfold firstSeen. by rewrite fold_left_app. Qed.

Lemma firstSeen_elem (l : list K) k : k ∈ firstSeen l ↔ k ∈ l.
Proof.
  induction l as [| x l IH] using rev_ind; [reflexivity |].
  rewrite firstSeen_snoc. destruct (decide (x ∈ firstSeen l)) as [Hin | Hnin].
  - rewrite elem_of_app, list_elem_of_singleton, IH.
    split; [tauto |]. intros [? | ->]; [tauto |]. by apply IH.
  - rewrite !elem_of_app, IH. reflexivity.
Qed.

Lemma firstSeen_NoDup (l : list K) : NoDup (firstSeen l).
Proof.
  induction l as [| x l IH] using rev_ind; [constructor |].
  rewrite firstSeen_snoc. destruct (decide (x ∈ firstSeen l)); [assumption |].
  apply NoDup_app. split; [assumption |]. split; [| apply NoDup_singleton].
  intros y Hy ->%list_elem_of_singleton. contradiction.
Qed.

Lemma withKey_snoc k (l : list V) v :
  withKey f k (l ++ [v]) = withKey f k l ++ (if decide (f v = k) then [v] else []).
Proof.
  unfold withKey. rewrite List.filter_app. cbn.
  destruct (decide (f v = k)) as [He | Hne].
  - by rewrite (bool_decide_eq_true_2 _ He).
  - by rewrite (bool_decide_eq_false_2 _ Hne).
Qed.

Lemma withKey_nil_iff k (l : list V) : withKey f k l = [] ↔ k ∉ map f l.
Proof.
  induction l as [| v l IH]; cbn.
  - split; [intros _ Hin; by apply elem_of_nil in Hin | done].
  - rewrite not_elem_of_cons. destruct (decide (f v = k)) as [He | Hne].
    + rewrite (bool_decide_eq_true_2 _ He). split; [discriminate |].
      intros [Hk _]. congruence.
    + rewrite (bool_decide_eq_false_2 _ Hne), IH. split; [| tauto].
      intros ?. split; [congruence | assumption].
Qed.

(** Pushing under a key that the map holds once. *)
Lemma pushTo_present k v (g : K → list V) (keys : list K) :
  k ∈ keys → NoDup keys →
  pushTo k v (map (λ k', (k', g k')) keys) =
    map (λ k', (k', g k' ++ (if decide (k = k') then [v] else []))) keys.
Proof.
  induction keys as [| k0 keys IH]; intros Hin Hnd.
  - by apply elem_of_nil in Hin.
  - apply NoDup_cons in Hnd as [Hk0 Hnd]. cbn.
    destruct (decide (k0 = k)) as [-> | Hne].
    + rewrite decide_True by done. f_equal.
      apply map_ext_in. intros k' Hk'%list_elem_of_In.
      rewrite decide_False by (intros ->; contradiction).
      by rewrite app_nil_r.
    + rewrite decide_False by congruence. rewrite app_nil_r. f_equal.
      apply IH; [| assumption].
      apply elem_of_cons in Hin as [-> | Hin]; [congruence | assumption].
Qed.

(** Pushing under a key that the map does not hold. *)
Lemma pushTo_absent k v (g : K → list V) (keys : list K) :
  k ∉ keys →
  pushTo k v (map (λ k', (k', g k')) keys) =
    map (λ k', (k', g k')) keys ++ [(k, [v])].
Proof.
  induction keys as [| k0 keys IH]; intros Hnin; [reflexivity |].
  apply not_elem_of_cons in Hnin as [Hne Hnin]. cbn.
  rewrite decide_False by congruence. f_equal. by apply IH.
Qed.

(** The map built by the grouping loop: the keys in the order in which they
    were first met, each with the elements of that key in input order. *)
Lemma groupBy_spec (l : list V) :
  groupBy f l = map (λ k, (k, withKey f k l)) (firstSeen (map f l)).
Proof.
  induction l as [| v l IH] using rev_ind; [reflexivity |].
  unfold groupBy in *. rewrite fold_left_app. cbn [fold_left]. rewrite IH.
  rewrite map_app. cbn [map]. rewrite firstSeen_snoc.
  destruct (decide (f v ∈ firstSeen (map f l))) as [Hin | Hnin].
  - rewrite pushTo_present by (assumption || apply firstSeen_NoDup).
    apply map_ext. intros k. rewrite withKey_snoc. reflexivity.
  - rewrite pushTo_absent by assumption. rewrite map_app. cbn [map]. f_equal.
    + apply map_ext_in. intros k Hk%list_elem_of_In. rewrite withKey_snoc.
      rewrite decide_False by (intros <-; contradiction). by rewrite app_nil_r.
    + rewrite withKey_snoc, decide_True by done.
      rewrite firstSeen_elem in Hnin. apply withKey_nil_iff in Hnin.
      by rewrite Hnin.
Qed.

Lemma groupBy_groups_nonempty (l : list V) k vs :
  (k, vs) ∈ groupBy f l → vs ≠ [].
Proof.
  rewrite groupBy_spec. intros (k' & [= -> ->] & Hk)%list_elem_of_fmap.
  rewrite firstSeen_elem in Hk. intros Hnil%withKey_nil_iff. contradiction.
Qed.

End GroupByFacts.

Section SortFacts.
Context {A : Type} (f : A → Z).

Lemma sortBy_snoc l x : sortBy f (l ++ [x]) = insertBy f x (sortBy f l).
Proof. unfold sortBy. by rewrite fold_left_app. Qed.

Lemma insertBy_Permutation x l : insertBy f x l ≡ₚ x :: l.
Proof.
  induction l as [| y l IH]; [reflexivity |]. cbn.
  destruct (f x <? f y); [reflexivity |]. rewrite IH. apply perm_swap.
Qed.

Lemma sortBy_Permutation l : sortBy f l ≡ₚ l.
Proof.
  induction l as [| x l IH] using rev_ind; [reflexivity |].
  rewrite sortBy_snoc, insertBy_Permutation, IH.
  apply Permutation_cons_append.
Qed.

Lemma insertBy_sorted x l :
  StronglySorted (keyLe f) l → StronglySorted (keyLe f) (insertBy f x l).
Proof.
  induction l as [| y l IH]; intros Hs; cbn.
  - repeat constructor.
  - apply StronglySorted_inv in Hs as [Hl Hy].
    destruct (f x <? f y) eqn:Hxy.
    + apply Z.ltb_lt in Hxy. constructor; [by constructor |].
      constructor; [unfold keyLe; lia |].
      eapply Forall_impl; [exact Hy |]. unfold keyLe. intros; lia.
    + apply Z.ltb_ge in Hxy. constructor; [by apply IH |].
      rewrite insertBy_Permutation. by constructor.
Qed.

Lemma sortBy_sorted l : StronglySorted (keyLe f) (sortBy f l).
Proof.
  induction l as [| x l IH] using rev_ind; [constructor |].
  rewrite sortBy_snoc. by apply insertBy_sorted.
Qed.


End SortFacts.

(** ** Stage A: merging the consecutive slots of one entry and day *)

Section StageAFacts.

Lemma withKey_app {K V : Type} `{EqDecision K} (f : V → K) k (a b : list V) :
  withKey f k (a ++ b) = withKey f k a ++ withKey f k b.
Proof. apply List.filter_app. Qed.

Lemma withKey_all {K V : Type} `{EqDecision K} (f : V → K) k (l : list V) :
  Forall (λ v, f v = k) l → withKey f k l = l.
Proof.
  unfold withKey. induction 1 as [| v l Hv _ IH]; [reflexivity |]. cbn.
  by rewrite (bool_decide_eq_true_2 _ Hv), IH.
Qed.

Lemma withKey_none {K V : Type} `{EqDecision K} (f : V → K) k k' (l : list V) :
  k ≠ k' → Forall (λ v, f v = k') l → withKey f k l = [].
Proof.
  unfold withKey. intros Hne. induction 1 as [| v l Hv _ IH]; [reflexivity |].
  cbn. rewrite bool_decide_eq_false_2 by congruence. exact IH.
Qed.

Lemma withKey_Forall {K V : Type} `{EqDecision K} (f : V → K) k (l : list V) :
  Forall (λ v, f v = k) (withKey f k l).
Proof.
  apply Forall_forall. intros v Hv%list_elem_of_In.
  apply filter_In in Hv as [_ Hv]. by apply bool_decide_eq_true in Hv.
Qed.

(** Of a family of lists, one per key and each holding elements of its key
    only, the elements of key [k] are the list of [k]. *)
Lemma withKey_flat_map {K V : Type} `{EqDecision K} (f : V → K) (h : K → list V)
    (keys : list K) k :
  NoDup keys → (∀ k', Forall (λ v, f v = k') (h k')) →
  withKey f k (flat_map h keys) = if decide (k ∈ keys) then h k else [].
Proof.
  intros Hnd Hh. induction Hnd as [| k0 keys Hk0 Hnd IH]; [reflexivity |].
  cbn [flat_map]. rewrite withKey_app, IH.
  destruct (decide (k = k0)) as [-> | Hne].
  - rewrite (withKey_all _ _ _ (Hh k0)).
    rewrite decide_False by assumption.
    rewrite decide_True by (left; reflexivity). apply app_nil_r.
  - rewrite (withKey_none _ _ _ _ Hne (Hh k0)). cbn [app].
    destruct (decide (k ∈ keys)) as [Hin | Hnin].
    + rewrite decide_True by (by right). reflexivity.
    + rewrite decide_False; [reflexivity |].
      intros [? | ?]%elem_of_cons; contradiction.
Qed.

Lemma mergeRuns_owner e d rs re rest :
  Forall (λ o, s_entry o = e ∧ s_day o = d) (mergeRuns e d rs re rest).
Proof.
  revert rs re. induction rest as [| g rest IH]; intros rs re; cbn.
  - repeat constructor.
  - destruct (s_start g =? re); [apply IH |]. constructor; [done | apply IH].
Qed.

Lemma key_owner a b :
  s_entry a = s_entry b → s_day a = s_day b → key a = key b.
Proof. unfold key. by intros -> ->. Qed.

(** The intervals of a group carry the key of the group. *)
Lemma mergeGroup_key k group :
  Forall (λ s, key s = k) group → Forall (λ o, key o = k) (mergeGroup group).
Proof.
  intros Hk. unfold mergeGroup.
  destruct (sortBy s_start group) as [| g0 rest] eqn:Hs; [constructor |].
  assert (Hg0 : key g0 = k).
  { rewrite Forall_forall in Hk. apply Hk. apply list_elem_of_In.
    rewrite <- (sortBy_Permutation s_start group), Hs. by left. }
  eapply Forall_impl; [apply mergeRuns_owner |].
  intros o [He Hd]. cbn in He, Hd. rewrite <- Hg0. by apply key_owner.
Qed.

(** The Stage A output of one key is the merge of the input slots of that key. *)
Lemma mergeConsecutiveSlots_group slots k :
  withKey key k (mergeConsecutiveSlots slots) = mergeGroup (withKey key k slots).
Proof.
  unfold mergeConsecutiveSlots. rewrite groupBy_spec, flat_map_concat_map, map_map.
  rewrite <- flat_map_concat_map. cbn [snd].
  rewrite (withKey_flat_map key (λ k', mergeGroup (withKey key k' slots))).
  - destruct (decide (k ∈ firstSeen (map key slots))) as [Hin | Hnin]; [done |].
    rewrite firstSeen_elem in Hnin. apply withKey_nil_iff in Hnin.
    by rewrite Hnin.
  - apply firstSeen_NoDup.
  - intros k'. apply mergeGroup_key, withKey_Forall.
Qed.

(** The runs start in the order of the scan. *)
Lemma mergeRuns_sorted e d rs re rest :
  StronglySorted (keyLe s_start) rest → Forall (λ g, rs <= s_start g) rest →
  let out := mergeRuns e d rs re rest in
  StronglySorted (keyLe s_start) out ∧ Forall (λ o, rs <= s_start o) out.
Proof.
  revert rs re. induction rest as [| g rest IH]; intros rs re Hs Hrs; cbn.
  - split; repeat constructor. cbn. lia.
  - apply StronglySorted_inv in Hs as [Hs Hg].
    apply Forall_cons in Hrs as [Hrg Hrs].
    destruct (s_start g =? re).
    + by apply IH.
    + destruct (IH (s_start g) (s_end g) Hs Hg) as [H1 H2]. split.
      * constructor; [assumption |].
        eapply Forall_impl; [exact H2 |]. unfold keyLe. cbn. intros; lia.
      * constructor; [cbn; lia |].
        eapply Forall_impl; [exact H2 |]. cbn. intros; lia.
Qed.



Lemma slotsOverlap_sym a b : slotsOverlap a b → slotsOverlap b a.
Proof. unfold slotsOverlap, overlaps. by rewrite andb_comm. Qed.

Lemma slotsOverlap_iff a b :
  slotsOverlap a b ↔ s_start a < s_end b ∧ s_start b < s_end a.
Proof.
  unfold slotsOverlap, overlaps.
  by rewrite andb_true_iff, !Z.ltb_lt.
Qed.



Lemma mergeGroup_sorted group : StronglySorted (keyLe s_start) (mergeGroup group).
Proof.
  unfold mergeGroup. pose proof (sortBy_sorted s_start group) as Hs.
  destruct (sortBy s_start group) as [| g0 rest]; [constructor |].
  apply StronglySorted_inv in Hs as [Hs Hg0].
  by apply mergeRuns_sorted.
Qed.


End StageAFacts.






(** ** Stage B: the blocks and their entries *)

Section BlockFacts.

Lemma elem_of_rev {A : Type} (x : A) l : x ∈ rev l ↔ x ∈ l.
Proof. rewrite !list_elem_of_In. symmetry. apply in_rev. Qed.

Lemma keepFirstBy_snoc {A K : Type} `{EqDecision K} (id : A → K) l x :
  keepFirstBy id (l ++ [x]) =
    if decide (id x ∈ map id l) then keepFirstBy id l else keepFirstBy id l ++ [x].
Proof.
  unfold keepFirstBy. rewrite rev_app_distr. cbn [rev app keepFirstBy_rev].
  rewrite map_rev.
  destruct (decide (id x ∈ rev (map id l))) as [Hin | Hnin].
  - rewrite decide_True; [done |]. by rewrite elem_of_rev in Hin.
  - rewrite decide_False; [done |]. by rewrite elem_of_rev in Hnin.
Qed.

Lemma keepFirstBy_ids {A K : Type} `{EqDecision K} (id : A → K) l k :
  k ∈ map id (keepFirstBy id l) ↔ k ∈ map id l.
Proof.
  induction l as [| x l IH] using rev_ind; [reflexivity |].
  rewrite keepFirstBy_snoc, map_app, elem_of_app. cbn [map].
  destruct (decide (id x ∈ map id l)) as [Hin | Hnin].
  - rewrite IH, list_elem_of_singleton. split; [tauto |].
    intros [? | ->]; tauto.
  - rewrite map_app, elem_of_app, IH. reflexivity.
Qed.

Lemma keepFirstBy_NoDup {A K : Type} `{EqDecision K} (id : A → K) l :
  NoDup (map id (keepFirstBy id l)).
Proof.
  induction l as [| x l IH] using rev_ind; [constructor |].
  rewrite keepFirstBy_snoc.
  destruct (decide (id x ∈ map id l)) as [Hin | Hnin]; [assumption |].
  rewrite map_app. apply NoDup_app. split; [assumption |].
  split; [| apply NoDup_singleton].
  intros k Hk Hx. apply list_elem_of_singleton in Hx. subst k.
  rewrite keepFirstBy_ids in Hk. contradiction.
Qed.

Lemma keepFirstBy_same {A K : Type} `{EqDecision K} (id : A → K) l k :
  Forall (λ x, id x = k) l → (length (keepFirstBy id l) <= 1)%nat.
Proof.
  intros Hall.
  pose proof (keepFirstBy_NoDup id l) as Hnd.
  assert (Hk : Forall (λ k', k' = k) (map id (keepFirstBy id l))).
  { apply Forall_forall. intros k' Hk'. rewrite keepFirstBy_ids in Hk'.
    apply list_elem_of_fmap in Hk' as (x & -> & Hx).
    rewrite Forall_forall in Hall. by apply Hall. }
  rewrite <- (length_map id).
  destruct (map id (keepFirstBy id l)) as [| k1 [| k2 r]]; cbn; try lia.
  apply Forall_cons in Hk as [-> Hk]. apply Forall_cons in Hk as [-> _].
  apply NoDup_cons in Hnd as [Hnin _]. exfalso. apply Hnin. by left.
Qed.

(** Two identifiers that tell the same elements of [l] apart deduplicate [l]
    alike. *)
Lemma keepFirstBy_ext {A K K' : Type} `{EqDecision K} `{EqDecision K'}
    (id : A → K) (id' : A → K') l :
  (∀ x y, x ∈ l → y ∈ l → id x = id y ↔ id' x = id' y) →
  keepFirstBy id l = keepFirstBy id' l.
Proof.
  induction l as [| x l IH] using rev_ind; intros Hsame; [reflexivity |].
  rewrite !keepFirstBy_snoc.
  assert (Hl : keepFirstBy id l = keepFirstBy id' l).
  { apply IH. intros a b Ha Hb. apply Hsame; apply elem_of_app; by left. }
  assert (Hx : id x ∈ map id l ↔ id' x ∈ map id' l).
  { split; intros (y & Hy & Hin)%list_elem_of_fmap; apply list_elem_of_fmap;
      exists y; (split; [| assumption]);
      apply (Hsame x y); try assumption;
      apply elem_of_app; (by left) || (right; by left). }
  destruct (decide (id x ∈ map id l)) as [Hin | Hnin].
  - rewrite decide_True by (by apply Hx). exact Hl.
  - rewrite decide_False by (by rewrite <- Hx). by rewrite Hl.
Qed.

(** The [seen] loop keeps the first entry of every identifier. *)
Lemma dedup_loop slots :
  let acc := fold_left dedupStep slots (∅, []) in
  (∀ id, id ∈ fst acc ↔ id ∈ map entryId (map s_entry slots))
  ∧ snd acc = keepFirstBy entryId (map s_entry slots).
Proof.
  induction slots as [| s slots IH] using rev_ind.
  - cbn. split; [| reflexivity]. intros id. split.
    + intros H. by apply not_elem_of_empty in H.
    + intros H. by apply elem_of_nil in H.
  - rewrite fold_left_app. cbn [fold_left].
    destruct IH as [Hseen Hent]. cbn zeta.
    rewrite !map_app. cbn [map]. rewrite keepFirstBy_snoc.
    remember (fold_left dedupStep slots (∅, [])) as acc eqn:Hacc.
    unfold dedupStep.
    destruct (decide (entryId (s_entry s) ∈ acc.1)) as [Hin | Hnin].
    + rewrite decide_True by (by apply Hseen). split; [| assumption].
      intros id. rewrite elem_of_app, list_elem_of_singleton, Hseen.
      split; [tauto |]. intros [? | ->]; [assumption | by apply Hseen].
    + rewrite decide_False by (by rewrite <- Hseen). cbn [fst snd].
      split; [| by rewrite Hent].
      intros id. rewrite elem_of_union, elem_of_singleton, elem_of_app,
        list_elem_of_singleton, Hseen. tauto.
Qed.

Lemma groupEntries_keepFirst slots :
  groupEntries slots = keepFirstBy entryId (map s_entry slots).
Proof. apply (dedup_loop slots). Qed.

(** The blocks, day by day in the order in which the days are first met. *)
Lemma mergeOverlappingSlots_days slots :
  mergeOverlappingSlots slots =
    flat_map (λ d, map (emitBlock d) (dayGroups (withKey s_day d slots)))
      (firstSeen (map s_day slots)).
Proof.
  unfold mergeOverlappingSlots. rewrite groupBy_spec.
  rewrite !flat_map_concat_map, map_map. reflexivity.
Qed.

Lemma block_of_group slots b :
  b ∈ mergeOverlappingSlots slots →
  ∃ g, g ∈ dayGroups (withKey s_day (b_day b) slots) ∧ b = emitBlock (b_day b) g.
Proof.
  rewrite mergeOverlappingSlots_days. intros Hb%list_elem_of_In.
  apply in_flat_map in Hb as (d & _ & Hb). apply list_elem_of_In in Hb.
  apply list_elem_of_fmap in Hb as (g & -> & Hg). cbn. eauto.
Qed.

Lemma entryId_pair e e' : entryPair e = entryPair e' → entryId e = entryId e'.
Proof. unfold entryPair, entryId. by intros [= -> ->]. Qed.

End BlockFacts.

(** C4.  Every display block that the consolidator emits comes from a group of
    its day; its entries are the contributors of the group deduplicated with
    the first of each identifier kept, in the order of first appearance, so
    each (course code, section code) is held at most once and every
    contributor's identifier is represented; [isConflict] holds exactly when
    two or more entries remain; and a block all of whose contributors are one
    course section is not a conflict.  The identifier is the string
    [code-section]; where it tells the contributors apart as their (course
    code, section code) does, the entries are the contributors deduplicated by
    that pair. *)
Theorem block_entries_conflict (slots : list SlotInput) (b : DisplayBlock) :
  b ∈ mergeOverlappingSlots slots →
  ∃ g, g ∈ dayGroups (withKey s_day (b_day b) slots)
    ∧ b = emitBlock (b_day b) g
    ∧ b_entries b = keepFirstBy entryId (map s_entry (g_slots g))
    ∧ NoDup (map entryPair (b_entries b))
    ∧ Forall (λ s, entryId (s_entry s) ∈ map entryId (b_entries b)) (g_slots g)
    ∧ (b_isConflict b = true ↔ (2 <= length (b_entries b))%nat)
    ∧ (∀ e, Forall (λ s, entryPair (s_entry s) = entryPair e) (g_slots g) →
            b_isConflict b = false)
    ∧ ((∀ e e', e ∈ map s_entry (g_slots g) → e' ∈ map s_entry (g_slots g) →
                entryId e = entryId e' → entryPair e = entryPair e') →
       b_entries b = keepFirstBy entryPair (map s_entry (g_slots g))).
Proof.
  intros Hb. destruct (block_of_group slots b Hb) as (g & Hg & Heq).
  exists g. split; [assumption |]. split; [assumption |].
  assert (Hent : b_entries b = keepFirstBy entryId (map s_entry (g_slots g))).
  { rewrite Heq. cbn. apply groupEntries_keepFirst. }
  assert (Hconf : b_isConflict b = (1 <? length (b_entries b))%nat).
  { rewrite Heq. reflexivity. }
  split; [assumption |]. split; [| split; [| split; [| split]]].
  - rewrite Hent.
    pose proof (keepFirstBy_NoDup entryId (map s_entry (g_slots g))) as Hnd.
    apply (NoDup_fmap_1 (λ p : list N * list N, p.1 ++ [dash] ++ p.2)).
    rewrite <- list_fmap_compose. exact Hnd.
  - rewrite Hent. apply Forall_forall. intros s Hs.
    apply keepFirstBy_ids. apply list_elem_of_fmap. exists (s_entry s).
    split; [reflexivity |]. apply list_elem_of_fmap. eauto.
  - rewrite Hconf. rewrite Nat.ltb_lt. lia.
  - intros e He. rewrite Hconf, Hent. apply Nat.ltb_ge.
    apply (keepFirstBy_same entryId _ (entryId e)).
    apply Forall_forall. intros e' (s & -> & Hs)%list_elem_of_fmap.
    rewrite Forall_forall in He. apply entryId_pair. by apply He.
  - intros Hinj. rewrite Hent. apply keepFirstBy_ext.
    intros e e' He He'. split; [by apply Hinj | apply entryId_pair].
Qed.

Lemma block_entries_conflict_witness :
  ∃ g, g ∈ dayGroups (withKey s_day D1 [a2; b2; a3])
    ∧ mkBlock D1 630 720 [courseA; courseB] true = emitBlock D1 g.
Proof.
  destruct (block_entries_conflict [a2; b2; a3]
              (mkBlock D1 630 720 [courseA; courseB] true))
    as (g & Hg & Heq & _).
  - vm_compute. left.
  - exists g. split; [exact Hg | exact Heq].
Defined.

(** ** Stage B: the groups of one day *)

Section StageBFacts.

Lemma views_read st V : views st V → readGroups st = V.
Proof.
  unfold views, readGroups. induction 1 as [| h g hs V Hh _ IH]; [reflexivity |].
  cbn. rewrite Hh. cbn. by rewrite IH.
Qed.

Lemma filter_overlapping_none arena s hs V :
  Forall2 (λ h g, arena !! h = Some g) hs V →
  Forall (λ g, overlapsEnvelope s g = false) V →
  List.filter (overlapsGroup arena s) hs = [].
Proof.
  induction 1 as [| h g hs V Hh _ IH]; [reflexivity |].
  intros [Hg HV]%Forall_cons. cbn. unfold overlapsGroup at 1. rewrite Hh.
  unfold overlapsEnvelope in Hg. rewrite Hg. by apply IH.
Qed.

(** No group overlaps the slot: a new group is created and pushed. *)
Lemma placeSlot_none arena hs V s :
  views (arena, hs) V → Forall (λ g, overlapsEnvelope s g = false) V →
  views (placeSlot (arena, hs) s) (V ++ [singletonGroup s]).
Proof.
  unfold views. cbn [fst snd]. intros Hv Hno. unfold placeSlot.
  rewrite (filter_overlapping_none arena s hs V Hv Hno). cbn [fst snd].
  apply Forall2_app.
  - eapply Forall2_impl; [exact Hv |]. intros h g Hh. cbn in *.
    by apply lookup_app_l_Some.
  - constructor; [| constructor]. cbn. apply list_lookup_middle. reflexivity.
Qed.

(** Only the last group overlaps the slot: it is updated in place. *)
Lemma placeSlot_last arena hs h V0 G s :
  Forall2 (λ h' g, arena !! h' = Some g) hs V0 → arena !! h = Some G →
  Forall (λ g, overlapsEnvelope s g = false) V0 → overlapsEnvelope s G = true →
  views (placeSlot (arena, hs ++ [h]) s) (V0 ++ [addSlot s G]).
Proof.
  intros Hv Hh Hno Hyes. unfold placeSlot.
  rewrite List.filter_app, (filter_overlapping_none arena s hs V0 Hv Hno).
  cbn [List.filter app]. unfold overlapsGroup at 1. rewrite Hh.
  unfold overlapsEnvelope in Hyes. rewrite Hyes. cbn [fold_left].
  unfold views. cbn [fst snd]. apply Forall2_app.
  - induction Hv as [| h' g hs V0 Hh' _ IH]; [constructor |].
    apply Forall_cons in Hno as [Hg Hno]. constructor; [| by apply IH].
    cbn. rewrite list_lookup_alter_ne; [assumption |].
    intros <-. rewrite Hh in Hh'. injection Hh' as <-.
    unfold overlapsEnvelope in Hg. congruence.
  - constructor; [| constructor]. cbn.
    rewrite list_lookup_alter, Hh, decide_True by done. reflexivity.
Qed.

Lemma StronglySorted_snoc {A : Type} (R : relation A) l x :
  StronglySorted R l → Forall (λ y, R y x) l → StronglySorted R (l ++ [x]).
Proof.
  induction 1 as [| y l Hl IH Hy]; intros Hx; cbn; [repeat constructor |].
  apply Forall_cons in Hx as [Hyx Hx]. constructor; [by apply IH |].
  apply Forall_app. split; [assumption |]. by constructor.
Qed.

Lemma StronglySorted_snoc_inv {A : Type} (R : relation A) l x :
  StronglySorted R (l ++ [x]) → StronglySorted R l ∧ Forall (λ y, R y x) l.
Proof.
  induction l as [| y l IH]; cbn; intros Hs; [split; constructor |].
  apply StronglySorted_inv in Hs as [Hs Hy].
  destruct (IH Hs) as [H1 H2]. apply Forall_app in Hy as [Hy Hyx].
  split; constructor; try assumption. by apply Forall_inv in Hyx.
Qed.

(** Two elements of a pairwise ordered list are equal or ordered. *)
Lemma StronglySorted_trichotomy {A : Type} (R : relation A) l x y :
  StronglySorted R l → x ∈ l → y ∈ l → x = y ∨ R x y ∨ R y x.
Proof.
  induction 1 as [| z l Hl IH Hz]; intros Hx Hy; [by apply elem_of_nil in Hx |].
  rewrite Forall_forall in Hz.
  apply elem_of_cons in Hx as [-> | Hx]; apply elem_of_cons in Hy as [-> | Hy];
    auto.
Qed.

Lemma connectedIn_mono l l' a b :
  (∀ x, x ∈ l → x ∈ l') → connectedIn l a b → connectedIn l' a b.
Proof.
  intros Hsub. apply rtc_subrel. intros x y (Hx & Hy & Hxy). auto.
Qed.

Lemma connectedIn_sym l a b : connectedIn l a b → connectedIn l b a.
Proof.
  induction 1 as [| x y z (Hx & Hy & Hxy) _ IH]; [reflexivity |].
  eapply rtc_r; [exact IH |]. split; [| split]; try assumption.
  by apply slotsOverlap_sym.
Qed.

Lemma singletonGroup_ok s :
  spansMembers (singletonGroup s) ∧ groupConnected (singletonGroup s).
Proof.
  split.
  - split; [done |]. split; [repeat constructor; cbn; lia |].
    split; exists s; (split; [by left | reflexivity]).
  - intros a b Ha Hb. cbn in Ha, Hb.
    apply list_elem_of_singleton in Ha, Hb. subst. reflexivity.
Qed.

(** A slot that starts inside the envelope of a group, after all its members,
    and joins it. *)
Lemma addSlot_ok G s :
  wellFormed s → spansMembers G → groupConnected G →
  Forall (λ m, s_start m <= s_start s) (g_slots G) → s_start s < g_end G →
  g_start (addSlot s G) = g_start G
  ∧ spansMembers (addSlot s G) ∧ groupConnected (addSlot s G).
Proof.
  intros Hwf (Hne & Hb & (m0 & Hm0 & Hs0) & (m1 & Hm1 & He1)) Hconn Hle Hin.
  unfold wellFormed in Hwf. rewrite Forall_forall in Hle, Hb.
  pose proof (Hle m0 Hm0) as Hm0s.
  assert (Hstart : g_start (addSlot s G) = g_start G) by (cbn; lia).
  split; [assumption |]. split.
  - split; [cbn; by destruct (g_slots G) |]. split; [| split].
    + cbn. apply Forall_app. split.
      * apply Forall_forall. intros m Hm. destruct (Hb m Hm). lia.
      * repeat constructor; lia.
    + exists m0. split; [cbn; apply elem_of_app; by left | cbn; lia].
    + destruct (Z_le_gt_dec (s_end s) (g_end G)).
      * exists m1. split; [cbn; apply elem_of_app; by left | cbn; lia].
      * exists s. split; [cbn; apply elem_of_app; right; by left | cbn; lia].
  - assert (Hedge : slotsOverlap m1 s).
    { apply slotsOverlap_iff. pose proof (Hle m1 Hm1). lia. }
    assert (Hold : ∀ a, a ∈ g_slots G → connectedIn (g_slots G ++ [s]) a s).
    { intros a Ha. eapply rtc_r.
      - eapply connectedIn_mono; [| exact (Hconn a m1 Ha Hm1)].
        intros x Hx. apply elem_of_app. by left.
      - split; [apply elem_of_app; by left |].
        split; [apply elem_of_app; right; by left | assumption]. }
    intros a b Ha Hb'. cbn in Ha, Hb'.
    apply elem_of_app in Ha as [Ha | Ha]; apply elem_of_app in Hb' as [Hb' | Hb'];
      cbn.
    + eapply connectedIn_mono; [| exact (Hconn a b Ha Hb')].
      intros x Hx. apply elem_of_app. by left.
    + apply list_elem_of_singleton in Hb'. subst b. by apply Hold.
    + apply list_elem_of_singleton in Ha. subst a.
      apply connectedIn_sym. by apply Hold.
    + apply list_elem_of_singleton in Ha, Hb'. subst. reflexivity.
Qed.

Lemma overlapsEnvelope_false_after s G :
  g_end G <= s_start s → overlapsEnvelope s G = false.
Proof.
  intros H. unfold overlapsEnvelope, overlaps.
  apply andb_false_iff. left. apply Z.ltb_ge. lia.
Qed.

(** Placing the slots of a day in start order keeps the groups apart, each
    spanning its members, which are connected. *)
Lemma stageB_invariant q :
  StronglySorted (keyLe s_start) q → Forall wellFormed q →
  ∃ V, views (fold_left placeSlot q ([], [])) V ∧ groupsOf q V.
Proof.
  induction q as [| s p IH] using rev_ind; intros Hs Hwf.
  { exists []. split; [constructor |].
    split; [reflexivity |]. split; [constructor |]. split; constructor. }
  apply StronglySorted_snoc_inv in Hs as [Hp Hps].
  apply Forall_app in Hwf as [Hwp Hws]. apply Forall_inv in Hws.
  destruct (IH Hp Hwp) as (V & Hview & Hcat & Hspan & Hconn & Hsep).
  rewrite fold_left_app. cbn [fold_left].
  destruct (fold_left placeSlot p ([], [])) as [arena hs].
  rewrite Forall_forall in Hps. unfold keyLe in Hps.
  destruct V as [| G V0 _] using rev_ind.
  - exists ([] ++ [singletonGroup s]). split; [by apply placeSlot_none |].
    cbn in Hcat. subst p. destruct (singletonGroup_ok s).
    split; [reflexivity |].
    split; [constructor; [assumption | constructor] |].
    split; [constructor; [assumption | constructor] |].
    constructor; constructor.
  - apply Forall2_app_inv_r in Hview as (hs0 & hs1 & Hv0 & Hv1 & Hhs).
    cbn [fst snd] in *. subst hs.
    apply Forall2_cons_inv_r in Hv1 as (h & tl & Hh & Htl & ->).
    apply Forall2_nil_inv_r in Htl as ->.
    apply Forall_app in Hspan as [Hspan0 HspanG]. apply Forall_inv in HspanG.
    apply Forall_app in Hconn as [Hconn0 HconnG]. apply Forall_inv in HconnG.
    apply StronglySorted_snoc_inv in Hsep as [Hsep0 HG0].
    rewrite map_app, concat_app in Hcat. cbn in Hcat. rewrite app_nil_r in Hcat.
    assert (Hmem : Forall (λ m, s_start m <= s_start s) (g_slots G)).
    { apply Forall_forall. intros m Hm. apply Hps. rewrite <- Hcat.
      apply elem_of_app. by right. }
    assert (HGs : g_start G <= s_start s).
    { destruct HspanG as (_ & _ & (m0 & Hm0 & <-) & _).
      rewrite Forall_forall in Hmem. by apply Hmem. }
    assert (Hno0 : Forall (λ g, overlapsEnvelope s g = false) V0).
    { eapply Forall_impl; [exact HG0 |]. intros G0 HG0G.
      apply overlapsEnvelope_false_after. unfold groupPrecedes in HG0G. lia. }
    destruct (Z_lt_ge_dec (s_start s) (g_end G)) as [Hin | Hout].
    + assert (Hyes : overlapsEnvelope s G = true).
      { unfold overlapsEnvelope, overlaps. unfold wellFormed in Hws.
        apply andb_true_iff. split; apply Z.ltb_lt; lia. }
      destruct (addSlot_ok G s Hws HspanG HconnG Hmem Hin) as (Hst & Hsp & Hco).
      exists (V0 ++ [addSlot s G]).
      split; [by apply (placeSlot_last arena hs0 h V0 G s) |].
      split; [| split; [| split]].
      * rewrite map_app, concat_app. cbn. rewrite app_nil_r, <- Hcat.
        by rewrite app_assoc.
      * apply Forall_app. split; [assumption | by constructor].
      * apply Forall_app. split; [assumption | by constructor].
      * apply StronglySorted_snoc; [assumption |].
        eapply Forall_impl; [exact HG0 |]. intros G0. unfold groupPrecedes.
        rewrite Hst. done.
    + assert (Hno : Forall (λ g, overlapsEnvelope s g = false) (V0 ++ [G])).
      { apply Forall_app. split; [assumption |]. constructor; [| constructor].
        apply overlapsEnvelope_false_after. lia. }
      assert (Hview : views (arena, hs0 ++ [h]) (V0 ++ [G])).
      { apply Forall2_app; [assumption |]. by repeat constructor. }
      destruct (singletonGroup_ok s) as [Hsp Hco].
      exists ((V0 ++ [G]) ++ [singletonGroup s]).
      split; [by apply placeSlot_none |]. split; [| split; [| split]].
      * rewrite !map_app, !concat_app. cbn. rewrite !app_nil_r, <- Hcat.
        reflexivity.
      * apply Forall_app. split; [| by constructor].
        apply Forall_app. split; [assumption | by constructor].
      * apply Forall_app. split; [| by constructor].
        apply Forall_app. split; [assumption | by constructor].
      * apply StronglySorted_snoc; [by apply StronglySorted_snoc |].
        apply Forall_app. split.
        -- eapply Forall_impl; [exact HG0 |]. intros G0. unfold groupPrecedes.
           cbn. lia.
        -- constructor; [| constructor]. unfold groupPrecedes. cbn. lia.
Qed.

Lemma dayGroups_groupsOf l :
  Forall wellFormed l → groupsOf (sortBy s_start l) (dayGroups l).
Proof.
  intros Hwf.
  destruct (stageB_invariant (sortBy s_start l)) as (V & Hview & HV).
  - apply sortBy_sorted.
  - by rewrite sortBy_Permutation.
  - unfold dayGroups. by rewrite (views_read _ _ Hview).
Qed.

Lemma firstSeen_constant {K : Type} `{EqDecision K} (l : list K) k :
  l ≠ [] → Forall (λ x, x = k) l → firstSeen l = [k].
Proof.
  induction l as [| x l IH] using rev_ind; [done |]. intros _ Hall.
  apply Forall_app in Hall as [Hl Hx]. apply Forall_inv in Hx. subst x.
  rewrite firstSeen_snoc. destruct l as [| y l']; [reflexivity |].
  rewrite IH by done. rewrite decide_True by (by left). reflexivity.
Qed.

(** With the slots of one day only, the blocks are those of its groups. *)
Lemma mergeOverlappingSlots_one_day l d :
  Forall (λ s, s_day s = d) l →
  mergeOverlappingSlots l = map (emitBlock d) (dayGroups l).
Proof.
  intros Hd. rewrite mergeOverlappingSlots_days.
  destruct l as [| s l']; [reflexivity |].
  rewrite (firstSeen_constant _ d); [| done | by apply Forall_fmap].
  cbn [flat_map]. rewrite app_nil_r. by rewrite (withKey_all s_day d _ Hd).
Qed.

End StageBFacts.

Section ComponentFacts.

Lemma elem_of_groups V x :
  x ∈ concat (map g_slots V) ↔ ∃ g, g ∈ V ∧ x ∈ g_slots g.
Proof.
  rewrite list_elem_of_In, in_concat. split.
  - intros (ms & Hms & Hx). apply in_map_iff in Hms as (g & <- & Hg).
    exists g. by rewrite !list_elem_of_In.
  - intros (g & Hg & Hx). exists (g_slots g).
    rewrite <- !list_elem_of_In. split; [| assumption].
    apply list_elem_of_fmap. eauto.
Qed.

(** Members of different groups of a separated family do not overlap. *)
Lemma separated_members V g g' a b :
  Forall spansMembers V → StronglySorted groupPrecedes V →
  g ∈ V → g' ∈ V → a ∈ g_slots g → b ∈ g_slots g' → slotsOverlap a b → g = g'.
Proof.
  intros Hspan Hsep Hg Hg' Ha Hb Hab. rewrite Forall_forall in Hspan.
  destruct (Hspan g Hg) as (_ & Hbg & _). destruct (Hspan g' Hg') as (_ & Hbg' & _).
  rewrite Forall_forall in Hbg, Hbg'.
  destruct (Hbg a Ha) as [Ha1 Ha2]. destruct (Hbg' b Hb) as [Hb1 Hb2].
  apply slotsOverlap_iff in Hab.
  destruct (StronglySorted_trichotomy _ _ g g' Hsep Hg Hg') as [? | [H | H]];
    [assumption | |]; unfold groupPrecedes in H; lia.
Qed.

Lemma blocks_disjoint d V :
  StronglySorted groupPrecedes V →
  StronglySorted (λ b b', ¬ blocksOverlap b b') (map (emitBlock d) V).
Proof.
  induction 1 as [| g V _ IH Hg]; cbn; constructor; [assumption |].
  apply Forall_forall. intros b (g' & -> & Hg')%list_elem_of_fmap.
  rewrite Forall_forall in Hg. specialize (Hg g' Hg').
  unfold blocksOverlap, overlaps, groupPrecedes in *. cbn.
  rewrite andb_true_iff, !Z.ltb_lt. lia.
Qed.

(** Two touching intervals alone are placed in two groups. *)
Lemma touching_pair_groups a b :
  wellFormed a → s_end a = s_start b →
  dayGroups [a; b] = [singletonGroup a; singletonGroup b].
Proof.
  unfold wellFormed. intros Ha Htouch.
  unfold dayGroups, sortBy. cbn [fold_left insertBy].
  replace (s_start b <? s_start a) with false by (symmetry; apply Z.ltb_ge; lia).
  cbn [fold_left]. unfold placeSlot at 2. cbn [List.filter app length].
  unfold placeSlot. cbn [List.filter]. unfold overlapsGroup. cbn [lookup list_lookup].
  unfold overlaps. cbn [g_start g_end].
  replace (s_start b <? s_end a) with false by (symmetry; apply Z.ltb_ge; lia).
  reflexivity.
Qed.

End ComponentFacts.

(** C2.  For the intervals of one day, [mergeOverlappingSlots] emits one block
    per connected component of the strict overlap relation: every interval is
    in one group; two intervals are in the same group exactly when a chain of
    overlapping intervals joins them (so a chain of partial overlaps is one
    block); the block spans the least start and the greatest end of its
    members; the blocks do not overlap one another; and two intervals that
    touch at an endpoint do not overlap and, on their own, give two blocks. *)
Theorem stageB_connected_components (l : list SlotInput) (d : DayIndex) :
  Forall (λ s, s_day s = d) l → Forall wellFormed l →
  mergeOverlappingSlots l = map (emitBlock d) (dayGroups l)
  ∧ concat (map g_slots (dayGroups l)) ≡ₚ l
  ∧ (∀ g g' a, g ∈ dayGroups l → g' ∈ dayGroups l →
       a ∈ g_slots g → a ∈ g_slots g' → g = g')
  ∧ Forall spansMembers (dayGroups l)
  ∧ (∀ a b, a ∈ l → b ∈ l →
       (∃ g, g ∈ dayGroups l ∧ a ∈ g_slots g ∧ b ∈ g_slots g) ↔ connectedIn l a b)
  ∧ StronglySorted (λ b b', ¬ blocksOverlap b b') (mergeOverlappingSlots l)
  ∧ (∀ a b, a ∈ l → b ∈ l → s_end a = s_start b →
       ¬ slotsOverlap a b
       ∧ mergeOverlappingSlots [a; b]
         = [emitBlock d (singletonGroup a); emitBlock d (singletonGroup b)]).
Proof.
  intros Hd Hwf.
  destruct (dayGroups_groupsOf l Hwf) as (Hcat & Hspan & Hconn & Hsep).
  pose proof (sortBy_Permutation s_start l) as Hperm.
  assert (Hmem : ∀ x, x ∈ l ↔ ∃ g, g ∈ dayGroups l ∧ x ∈ g_slots g).
  { intros x. by rewrite <- elem_of_groups, Hcat, Hperm. }
  rewrite (mergeOverlappingSlots_one_day l d Hd).
  rewrite Forall_forall in Hd, Hwf.
  split; [reflexivity |]. split; [by rewrite Hcat |].
  split; [| split; [assumption |]; split; [| split]].
  - intros g g' a Hg Hg' Ha Ha'.
    apply (separated_members (dayGroups l) g g' a a); try assumption.
    apply slotsOverlap_iff. assert (a ∈ l) as Hal by (apply Hmem; eauto).
    specialize (Hwf a Hal). unfold wellFormed in Hwf. lia.
  - intros a b Ha Hb. split.
    + intros (g & Hg & Hag & Hbg). rewrite Forall_forall in Hconn.
      eapply connectedIn_mono; [| exact (Hconn g Hg a b Hag Hbg)].
      intros x Hx. apply Hmem. eauto.
    + intros Hab. apply Hmem in Ha as (g & Hg & Hag). exists g.
      split; [assumption |]. split; [assumption |].
      clear Hb. revert g Hg Hag.
      induction Hab as [a | a y b (_ & Hy & Hay) _ IH]; intros g Hg Hag;
        [assumption |].
      apply Hmem in Hy as (g' & Hg' & Hyg').
      assert (g = g') as <- by (eapply separated_members; eassumption).
      by apply IH.
  - by apply blocks_disjoint.
  - intros a b Ha Hb Htouch. split; [rewrite slotsOverlap_iff; lia |].
    rewrite (mergeOverlappingSlots_one_day [a; b] d)
      by (repeat constructor; by apply Hd).
    by rewrite (touching_pair_groups a b (Hwf a Ha) Htouch).
Qed.

Lemma stageB_connected_components_witness :
  mergeOverlappingSlots [chainA; chainB; chainC]
  = [mkBlock D0 0 200 [courseA; courseB] true].
Proof.
  rewrite (proj1 (stageB_connected_components [chainA; chainB; chainC] D0
                    ltac:(repeat constructor)
                    ltac:(repeat constructor; unfold wellFormed; cbn; lia))).
  reflexivity.
Defined.

(** Two intervals of one day that touch at 100 stay two blocks. *)
Example stageB_touching_example :
  mergeOverlappingSlots [touchA; touchB]
  = [mkBlock D0 0 100 [courseA] false; mkBlock D0 100 200 [courseB] false].
Proof. reflexivity. Qed.

(** One course section on Tuesday periods 2 and 3: one block from 10:30 to
    13:30 that is not a conflict. *)
Example consolidate_double_period :
  consolidate [halfA2; halfA3] = [mkBlock D1 630 810 [halfA2] false].
Proof. reflexivity. Qed.

(** Two courses on the same slot: one block, a conflict, both entries in the
    order of the input. *)
Example consolidate_same_slot :
  consolidate [courseX; courseY] = [mkBlock D0 540 630 [courseX; courseY] true].
Proof. reflexivity. Qed.

(** ** The grid layout *)

Section LayoutFacts.
Variable Number : list N → option Z.

Lemma fold_left_invariant {A B : Type} (J : A → Prop) (f : A → B → A) l a :
  (∀ acc x, J acc → J (f acc x)) → J a → J (fold_left f l a).
Proof.
  intros Hstep. revert a. induction l as [| x l IH]; intros a Ha; [assumption |].
  cbn. apply IH. by apply Hstep.
Qed.

Lemma isMinimumOf_snoc m d l x :
  isMinimumOf m (d :: l) → isMinimumOf (Z.min m x) (d :: l ++ [x]).
Proof.
  intros [Hin Hle]. change (d :: l ++ [x]) with ((d :: l) ++ [x]). split.
  - apply elem_of_app. destruct (Z.min_spec m x) as [[_ ->] | [_ ->]];
      [by left | right; by left].
  - apply Forall_app. split.
    + eapply Forall_impl; [exact Hle |]. cbn. intros; lia.
    + repeat constructor. lia.
Qed.

Lemma isMaximumOf_snoc m d l x :
  isMaximumOf m (d :: l) → isMaximumOf (Z.max m x) (d :: l ++ [x]).
Proof.
  intros [Hin Hle]. change (d :: l ++ [x]) with ((d :: l) ++ [x]). split.
  - apply elem_of_app. destruct (Z.max_spec m x) as [[_ ->] | [_ ->]];
      [right; by left | by left].
  - apply Forall_app. split.
    + eapply Forall_impl; [exact Hle |]. cbn. intros; lia.
    + repeat constructor. lia.
Qed.

(** The running minimum and maximum of the collecting loop start from the
    defaults and take in every slot. *)
Lemma collect_bounds entries :
  let c := collect entries in
  isMinimumOf (minStart c) (DEFAULT_START_MINUTES :: map s_start (allSlots c))
  ∧ isMaximumOf (maxEnd c) (DEFAULT_END_MINUTES :: map s_end (allSlots c)).
Proof.
  unfold collect.
  apply (fold_left_invariant
           (λ c, isMinimumOf (minStart c)
                   (DEFAULT_START_MINUTES :: map s_start (allSlots c))
                 ∧ isMaximumOf (maxEnd c)
                     (DEFAULT_END_MINUTES :: map s_end (allSlots c)))).
  - intros acc entry Hacc. unfold collectEntry.
    apply fold_left_invariant; [| assumption].
    intros acc' slot [Hmin Hmax]. cbn. rewrite !map_app. cbn [map s_start s_end].
    split; [by apply isMinimumOf_snoc | by apply isMaximumOf_snoc].
  - cbn. split; (split; [by left | repeat constructor; lia]).
Qed.





Lemma Qltb_lt x y : Qltb x y = true ↔ (x < y)%Q.
Proof.
  unfold Qltb. rewrite Qlt_alt. destruct (x ?= y)%Q; split; congruence.
Qed.

Lemma positionBlocks_elem gridStart gridEnd days displaySlots b :
  b ∈ positionBlocks gridStart gridEnd days displaySlots ↔
  ∃ s, s ∈ displaySlots ∧ b_day s ∈ days ∧ b = positionBlock gridStart gridEnd s
       ∧ ∃ h, heightPercent b = Some h ∧ (0 < h)%Q.
Proof.
  unfold positionBlocks. rewrite list_elem_of_In, filter_In, in_map_iff. split.
  - intros [(s & <- & Hs) Hh]. apply filter_In in Hs as [Hs Hd].
    apply bool_decide_eq_true in Hd. exists s.
    split; [by apply list_elem_of_In |]. split; [assumption |].
    split; [reflexivity |].
    destruct (heightPercent (positionBlock gridStart gridEnd s)) as [h |];
      [| discriminate].
    exists h. split; [reflexivity |]. by apply Qltb_lt.
  - intros (s & Hs & Hd & -> & h & Hh & Hpos). split.
    + exists s. split; [reflexivity |]. apply filter_In.
      split; [by apply list_elem_of_In | by apply bool_decide_eq_true].
    + rewrite Hh. cbn. by apply Qltb_lt.
Qed.

Lemma dayNumber_inj a b : dayNumber a = dayNumber b → a = b.
Proof. by destruct a, b. Qed.

End LayoutFacts.

(** *** The intervals that reach Stage B are non-empty *)

Section PipelineSlots.

Lemma specSlot_shape token slot :
  specSlot token = Some slot →
  endMinutes slot = startMinutes slot + 90 ∧ 450 <= startMinutes slot.
Proof.
  unfold specSlot. destruct token as [| c ds]; [discriminate |].
  destruct (dayOfLabel c); [| discriminate].
  destruct (negb (bool_decide (ds = [])) && forallb isDigit ds); [| discriminate].
  intros [= <-]. cbn. pose proof (decimalValue_nonneg ds). lia.
Qed.

(** Every parsed slot lasts 90 minutes and starts at 07:30 or later. *)
Lemma parseLectureTime_slot_shape raw slot :
  slot ∈ parseLectureTime raw →
  endMinutes slot = startMinutes slot + 90 ∧ 450 <= startMinutes slot.
Proof.
  rewrite parseLectureTime_parseSpec. unfold parseSpec.
  intros (token & _ & Hslot)%list_elem_of_omap. by apply (specSlot_shape token).
Qed.

Lemma collect_wellFormed entries : Forall wellFormed (allSlots (collect entries)).
Proof.
  unfold collect.
  apply (fold_left_invariant (λ c, Forall wellFormed (allSlots c))); [| constructor].
  intros acc entry Hacc. unfold collectEntry.
  assert (Hshape : Forall (λ slot, startMinutes slot < endMinutes slot)
                     (parseLectureTime (강의시간 entry))).
  { apply Forall_forall. intros slot Hslot.
    destruct (parseLectureTime_slot_shape _ _ Hslot). lia. }
  revert acc Hacc. induction Hshape as [| slot slots Hslot _ IH]; intros acc Hacc;
    [assumption |].
  cbn [fold_left]. apply IH. cbn. apply Forall_app. split; [assumption |].
  repeat constructor. exact Hslot.
Qed.

Lemma mergeRuns_wellFormed e d rs re rest :
  rs < re → Forall wellFormed rest → Forall wellFormed (mergeRuns e d rs re rest).
Proof.
  revert rs re. induction rest as [| g rest IH]; intros rs re Hr Hwf; cbn.
  - by repeat constructor.
  - apply Forall_cons in Hwf as [Hg Hwf]. unfold wellFormed in Hg.
    destruct (s_start g =? re) eqn:Heq.
    + apply Z.eqb_eq in Heq. apply IH; [lia | assumption].
    + constructor; [exact Hr | by apply IH].
Qed.

Lemma mergeGroup_wellFormed group :
  Forall wellFormed group → Forall wellFormed (mergeGroup group).
Proof.
  intros Hwf. unfold mergeGroup.
  rewrite <- (sortBy_Permutation s_start group) in Hwf.
  destruct (sortBy s_start group) as [| g0 rest]; [constructor |].
  apply Forall_cons in Hwf as [Hg0 Hwf]. by apply mergeRuns_wellFormed.
Qed.

(** Stage A keeps intervals non-empty, so the pipeline hands non-empty
    intervals to Stage B. *)
Lemma mergeConsecutiveSlots_wellFormed slots :
  Forall wellFormed slots → Forall wellFormed (mergeConsecutiveSlots slots).
Proof.
  intros Hwf. unfold mergeConsecutiveSlots. rewrite groupBy_spec.
  apply Forall_forall. intros o Ho%list_elem_of_In.
  apply in_flat_map in Ho as (kv & Hkv & Ho).
  apply in_map_iff in Hkv as (k & <- & _). cbn in Ho.
  assert (Hg : Forall wellFormed (withKey key k slots)).
  { apply Forall_forall. intros x Hx%list_elem_of_In.
    apply filter_In in Hx as [Hx _]. rewrite Forall_forall in Hwf.
    by apply Hwf, list_elem_of_In. }
  pose proof (mergeGroup_wellFormed _ Hg) as Hout.
  rewrite Forall_forall in Hout. by apply Hout, list_elem_of_In.
Qed.

Lemma pipeline_intervals_wellFormed entries :
  Forall wellFormed (mergeConsecutiveSlots (allSlots (collect entries))).
Proof. apply mergeConsecutiveSlots_wellFormed, collect_wellFormed. Qed.

End PipelineSlots.

(** C1 (as amended).  Without a custom start or end, the window starts at the
    least of 09:00 (540) and the starts of all parsed slots and ends at the
    greatest of 18:00 (1080) and their ends: the bounds derived from the slots
    are widened to cover the default window.  With no slot they are the
    defaults 540 and 1080. *)
Theorem window_bounds_without_override (Number : list N → option Z)
    (entries : list TimetableEntry) (included : option (list DayIndex)) :
  ∃ gs ge,
    gridStart (layout Number entries (mkView None None included)) = Some gs
    ∧ gridEnd (layout Number entries (mkView None None included)) = Some ge
    ∧ isMinimumOf gs
        (DEFAULT_START_MINUTES :: map s_start (allSlots (collect entries)))
    ∧ isMaximumOf ge
        (DEFAULT_END_MINUTES :: map s_end (allSlots (collect entries)))
    ∧ (allSlots (collect entries) = [] → gs = 540 ∧ ge = 1080).
Proof.
  destruct (collect_bounds entries) as [Hmin Hmax].
  unfold layout, resolveStart, resolveEnd. cbn [gridStart gridEnd customStart customEnd fmap option_fmap option_map].
  destruct (allSlots (collect entries)) as [| s0 rest] eqn:Hslots.
  - exists DEFAULT_START_MINUTES, DEFAULT_END_MINUTES.
    split; [reflexivity |]. split; [reflexivity |].
    split; [split; [by left | repeat constructor; lia] |].
    split; [split; [by left | repeat constructor; lia] |]. done.
  - exists (minStart (collect entries)), (maxEnd (collect entries)).
    split; [reflexivity |]. split; [reflexivity |].
    split; [assumption |]. split; [assumption |]. discriminate.
Qed.

Lemma window_bounds_without_override_witness :
  gridStart (layout digitsNumber [] plainView) = Some 540
  ∧ gridEnd (layout digitsNumber [] plainView) = Some 1080.
Proof.
  destruct (window_bounds_without_override digitsNumber [] None)
    as (gs & ge & Hs & He & _ & _ & Hd).
  destruct (Hd eq_refl) as [-> ->]. split; [exact Hs | exact He].
Defined.

(** C1 as it is stated fails: with the single slot [630, 720) of "화2" and no
    override the window is [540, 1080), not [630, 720). *)
Lemma window_bounds_not_slot_extrema :
  allSlots (collect [courseB]) ≠ []
  ∧ ¬ (∃ gs ge,
         gridStart (layout digitsNumber [courseB] plainView) = Some gs
         ∧ gridEnd (layout digitsNumber [courseB] plainView) = Some ge
         ∧ isMinimumOf gs (map s_start (allSlots (collect [courseB])))
         ∧ isMaximumOf ge (map s_end (allSlots (collect [courseB])))).
Proof.
  split; [discriminate |].
  intros (gs & ge & Hs & _ & [Hin _] & _).
  vm_compute in Hs. injection Hs as <-. vm_compute in Hin.
  apply list_elem_of_singleton in Hin. discriminate.
Qed.



(** C9.  Every positioned block lies on a day of the resolved day list; when
    the view state gives an included-day set, the day of every positioned
    block belongs to that set, whatever the time range of the block. *)
Theorem blocks_on_listed_days (Number : list N → option Z)
    (entries : list TimetableEntry) (view : ViewState) (b : PositionedBlock) :
  b ∈ blocks (layout Number entries view) →
  b_day (block b) ∈ days (layout Number entries view)
  ∧ (∀ set, includedDays view = Some set → b_day (block b) ∈ set).
Proof.
  unfold layout. cbn [blocks days]. intros Hb.
  apply positionBlocks_elem in Hb as (s & _ & Hd & -> & _). cbn [block positionBlock].
  split; [assumption |]. intros set Hset. unfold resolveDays in Hd.
  rewrite Hset in Hd. by rewrite sortBy_Permutation in Hd.
Qed.

Lemma blocks_on_listed_days_witness :
  ∃ b, b ∈ blocks (layout digitsNumber [courseA; repeatedEntry] tuesdayView)
       ∧ b_day (block b) ∈ [D1].
Proof.
  assert (E : ∃ b rest,
             blocks (layout digitsNumber [courseA; repeatedEntry] tuesdayView)
             = b :: rest) by (vm_compute; eauto).
  destruct E as (b & rest & E).
  assert (Hb : b ∈ blocks (layout digitsNumber [courseA; repeatedEntry] tuesdayView))
    by (rewrite E; left).
  exists b. split; [exact Hb |].
  exact (proj2 (blocks_on_listed_days digitsNumber _ tuesdayView b Hb) [D1] eq_refl).
Defined.



(** * Further properties of the code *)

(** ** The parser and the day tables *)

Section ParserMore.


Lemma trimStart_split s :
  ∃ w, forallb isWhiteSpace w = true ∧ s = w ++ trimStart s.
Proof.
  induction s as [| c r (w & Hw & Hr)]; [by exists [] |]. cbn.
  destruct (isWhiteSpace c) eqn:Hc; [| by exists []].
  exists (c :: w). cbn. rewrite Hc, Hw. split; [reflexivity | by f_equal].
Qed.

Lemma specTokens_blank w : forallb isWhiteSpace w = true → specTokens w = [].
Proof.
  induction w as [| c w IH]; [reflexivity |]. cbn.
  intros [Hc Hw]%andb_true_iff. rewrite Hc. by apply IH.
Qed.

Lemma specTokens_blank_prefix w s :
  forallb isWhiteSpace w = true → specTokens (w ++ s) = specTokens s.
Proof.
  induction w as [| c w IH]; [reflexivity |]. cbn.
  intros [Hc Hw]%andb_true_iff. rewrite Hc. by apply IH.
Qed.

(** A blank between two strings separates their tokens. *)
Lemma specTokens_app_blank a c b :
  isWhiteSpace c = true →
  specTokens (a ++ c :: b) = specTokens a ++ specTokens b.
Proof.
  intros Hc. induction a as [| x a IH]; [cbn; by rewrite Hc |].
  cbn [app specTokens]. rewrite IH. destruct (isWhiteSpace x) eqn:Hx; [reflexivity |].
  destruct a as [| y a']; cbn [app head].
  - cbn [specTokens app]. rewrite Hc. by destruct (specTokens b).
  - destruct (isWhiteSpace y) eqn:Hy.
    + destruct (specTokens (y :: a')); cbn [app]; [| reflexivity].
      by destruct (specTokens b).
    + destruct (specTokens_nonblank_head y a' Hy) as (t & ts & ->). reflexivity.
Qed.

Lemma specTokens_blank_suffix s w :
  forallb isWhiteSpace w = true → specTokens (s ++ w) = specTokens s.
Proof.
  destruct w as [| c w]; [by rewrite app_nil_r |]. cbn.
  intros [Hc Hw]%andb_true_iff.
  rewrite (specTokens_app_blank s c w Hc), (specTokens_blank w Hw).
  apply app_nil_r.
Qed.

Lemma specTokens_trim s : specTokens (trim s) = specTokens s.
Proof.
  unfold trim, trimEnd.
  destruct (trimStart_split s) as (w & Hw & Hs).
  destruct (trimStart_split (rev (trimStart s))) as (w' & Hw' & Hs').
  rewrite Hs at 2. rewrite (specTokens_blank_prefix w _ Hw).
  apply (f_equal (@rev N)) in Hs'.
  rewrite rev_involutive, rev_app_distr in Hs'. rewrite Hs' at 2.
  rewrite specTokens_blank_suffix; [reflexivity |].
  rewrite forallb_forall in *. intros x Hx. apply Hw'. by apply in_rev.
Qed.

(** The parser reads the tokens of the raw string. *)
Lemma parseLectureTime_tokens raw :
  parseLectureTime raw = omap specSlot (specTokens raw).
Proof. by rewrite parseLectureTime_parseSpec; unfold parseSpec; rewrite specTokens_trim. Qed.

End ParserMore.



(** X2.  Parsing two schedule strings joined by a blank gives the slots of the
    first followed by the slots of the second. *)
Theorem parseLectureTime_join (a b : list N) (c : N) :
  isWhiteSpace c = true →
  parseLectureTime (a ++ c :: b) = parseLectureTime a ++ parseLectureTime b.
Proof.
  intros Hc. rewrite !parseLectureTime_tokens, (specTokens_app_blank a c b Hc).
  apply omap_app.
Qed.

Lemma parseLectureTime_join_witness :
  parseLectureTime ([월; 52] ++ 32 :: [수; 51])%N
  = parseLectureTime [월; 52]%N ++ parseLectureTime [수; 51]%N.
Proof. apply (parseLectureTime_join [월; 52]%N [수; 51]%N 32%N). reflexivity. Defined.

(** X3.  The two day tables are inverse to each other: the name of a day index
    maps back to it, and a label that [DAY_MAP] sends to a day index is the
    name of that index. *)
Theorem day_tables_inverse (d : DayIndex) (label : list N) :
  DAY_MAP (DAY_NAMES d) = Some d
  ∧ (DAY_MAP label = Some d → label = DAY_NAMES d).
Proof.
  split; [by destruct d |].
  destruct label as [| c [| c' r]]; unfold DAY_MAP; try discriminate.
  repeat match goal with
         | |- context [N.eqb c ?x] =>
             destruct (N.eqb_spec c x) as [-> | _];
             [intros [= <-]; reflexivity |]
         end.
  discriminate.
Qed.

Lemma day_tables_inverse_witness : [목] = DAY_NAMES D3.
Proof. apply (proj2 (day_tables_inverse D3 [목])). reflexivity. Defined.

(** ** Printing and reading a clock time *)

Section ClockFacts.




Lemma decimalValue_leading_zero ds :
  forallb isDigit ds = true → decimalValue (48%N :: ds) = decimalValue ds.
Proof.
  intros H. rewrite <- !digitPrefixValue_digits; [reflexivity | assumption |].
  cbn. by rewrite H.
Qed.

(** Padding a decimal numeral keeps it a numeral of the same value. *)
Lemma padStart2_digits ds :
  ds ≠ [] → forallb isDigit ds = true →
  padStart2 ds ≠ [] ∧ forallb isDigit (padStart2 ds) = true
  ∧ decimalValue (padStart2 ds) = decimalValue ds.
Proof.
  intros Hne Hds. unfold padStart2.
  induction (2 - length ds)%nat as [| n (H1 & H2 & H3)]; [done |].
  cbn [repeat app]. split; [done |]. split; [cbn; by rewrite H2 |].
  by rewrite decimalValue_leading_zero.
Qed.

Lemma stringOfInt_nonneg z :
  0 <= z →
  stringOfInt z ≠ [] ∧ forallb isDigit (stringOfInt z) = true
  ∧ decimalValue (stringOfInt z) = z.
Proof.
  intros Hz. unfold stringOfInt.
  destruct (z <? 0) eqn:Hneg; [apply Z.ltb_lt in Hneg; lia |].
  destruct (decimalDigits_spec (Z.to_N z)) as (H1 & H2 & H3).
  split; [assumption |]. split; [assumption |]. rewrite H3. lia.
Qed.

Lemma decimalDigits_two k :
  (k < 100)%N → (length (decimalDigits k) <= 2)%nat.
Proof.
  intros Hk. unfold decimalDigits. rewrite decimalDigits_fuel_S.
  destruct (k <? 10)%N eqn:Hlt; [cbn; lia |]. apply N.ltb_ge in Hlt.
  assert (Hlog : (3 <= N.log2 k)%N).
  { change 3%N with (N.log2 10). by apply N.log2_le_mono. }
  destruct (N.to_nat (N.log2 k)) as [| f] eqn:Hf; [lia |].
  rewrite decimalDigits_fuel_S.
  assert (Hdiv : (k / 10 < 10)%N) by (apply N.Div0.div_lt_upper_bound; lia).
  apply N.ltb_lt in Hdiv. rewrite Hdiv. cbn. lia.
Qed.

Lemma padStart2_length ds :
  ds ≠ [] → (length ds <= 2)%nat → length (padStart2 ds) = 2%nat.
Proof.
  intros Hne Hlen. unfold padStart2. rewrite length_app, repeat_length.
  destruct ds; [done |]. cbn in *. lia.
Qed.

End ClockFacts.



(** X5.  A time of less than 100 hours that is not negative prints as two
    digits, a colon and two digits. *)
Theorem minutesToTime_format (m : Z) :
  0 <= m < 6000 →
  ∃ a b c d, minutesToTime m = [a; b; colon; c; d]
    ∧ forallb isDigit [a; b; c; d] = true.
Proof.
  intros Hm. unfold minutesToTime.
  assert (Hh : 0 <= m `div` 60 < 100).
  { split; [apply Z.div_pos; lia | apply Z.div_lt_upper_bound; lia]. }
  assert (Hr : 0 <= m `rem` 60 < 60).
  { rewrite Z.rem_mod_nonneg by lia. apply Z.mod_pos_bound. lia. }
  destruct (stringOfInt_nonneg (m `div` 60)) as (Hh1 & Hh2 & _); [lia |].
  destruct (stringOfInt_nonneg (m `rem` 60)) as (Hr1 & Hr2 & _); [lia |].
  assert (Hlh : (length (stringOfInt (m `div` 60)) <= 2)%nat).
  { unfold stringOfInt. destruct (m `div` 60 <? 0) eqn:E;
      [apply Z.ltb_lt in E; lia |]. apply decimalDigits_two. lia. }
  assert (Hlr : (length (stringOfInt (m `rem` 60)) <= 2)%nat).
  { unfold stringOfInt. destruct (m `rem` 60 <? 0) eqn:E;
      [apply Z.ltb_lt in E; lia |]. apply decimalDigits_two. lia. }
  pose proof (padStart2_length _ Hh1 Hlh) as La.
  pose proof (padStart2_length _ Hr1 Hlr) as Lb.
  destruct (padStart2_digits _ Hh1 Hh2) as (_ & Ha & _).
  destruct (padStart2_digits _ Hr1 Hr2) as (_ & Hb & _).
  destruct (padStart2 (stringOfInt (m `div` 60))) as [| a [| b [| ? ?]]];
    try discriminate.
  destruct (padStart2 (stringOfInt (m `rem` 60))) as [| c [| d [| ? ?]]];
    try discriminate.
  exists a, b, c, d. split; [reflexivity |].
  cbn in *. apply andb_true_iff in Ha as [-> Ha]. apply andb_true_iff in Hb as [-> Hb].
  rewrite andb_true_r in Ha, Hb. by rewrite Ha, Hb.
Qed.

Lemma minutesToTime_format_witness :
  ∃ a b c d, minutesToTime 545 = [a; b; colon; c; d]
    ∧ forallb isDigit [a; b; c; d] = true.
Proof. apply (minutesToTime_format 545). lia. Defined.

(** ** The axis labels *)

Section AxisFacts.




End AxisFacts.





(** X8.  For a window whose start is before its end, every period label is one
    of the periods 1 to 6 cut to the window, it is not empty and lies within
    the window; and every minute of the window between 09:00 and 18:00 is in
    one of the labels. *)
Theorem periods_cover_window (a b : Z) :
  a < b →
  (∀ lab, lab ∈ getPeriodsInRange (Some a) (Some b) →
     1 <= period lab <= 6
     ∧ p_start lab = Z.max (540 + 90 * (period lab - 1)) a
     ∧ p_end lab = Z.min (540 + 90 * period lab) b
     ∧ a <= p_start lab ∧ p_start lab < p_end lab ∧ p_end lab <= b)
  ∧ (∀ t, a <= t < b → 540 <= t < 1080 →
       ∃ lab, lab ∈ getPeriodsInRange (Some a) (Some b)
              ∧ p_start lab <= t < p_end lab).
Proof.
  intros Hab. unfold getPeriodsInRange. split.
  - intros lab (p & Hp & Hlab)%list_elem_of_omap.
    unfold periodInRange, PERIOD_START_MINUTES, PERIOD_DURATION in Hlab.
    cbn [cmp2 lift2] in Hlab.
    destruct (_ && _) eqn:Hc in Hlab; [| discriminate].
    injection Hlab as <-. cbn [period p_start p_end].
    apply andb_true_iff in Hc as [H1%Z.gtb_lt H2%Z.ltb_lt].
    repeat (apply elem_of_cons in Hp as [-> | Hp]; [lia |]).
    by apply elem_of_nil in Hp.
  - intros t Ht Hday.
    assert (Hp : ∃ p, p ∈ [1; 2; 3; 4; 5; 6]
                      ∧ 540 + 90 * (p - 1) <= t < 540 + 90 * p).
    { assert (540 <= t < 630 ∨ 630 <= t < 720 ∨ 720 <= t < 810
              ∨ 810 <= t < 900 ∨ 900 <= t < 990 ∨ 990 <= t < 1080)
        as [? | [? | [? | [? | [? | ?]]]]] by lia;
        [exists 1 | exists 2 | exists 3 | exists 4 | exists 5 | exists 6];
        (split; [apply list_elem_of_In; cbn; auto 10 | lia]). }
    destruct Hp as (p & Hp & Hpt).
    exists (mkPeriod p (Z.max (540 + 90 * (p - 1)) a) (Z.min (540 + 90 * p) b)).
    split; [| cbn; lia].
    apply list_elem_of_omap. exists p. split; [assumption |].
    unfold periodInRange, PERIOD_START_MINUTES, PERIOD_DURATION. cbn [cmp2 lift2].
    assert (Hc : (9 * 60 + (p - 1) * 90 + 90 >? a) && (9 * 60 + (p - 1) * 90 <? b)
                 = true).
    { apply andb_true_iff. split; [apply Z.gtb_lt | apply Z.ltb_lt]; lia. }
    rewrite Hc. f_equal. f_equal; f_equal; lia.
Qed.

Lemma periods_cover_window_witness :
  ∃ lab, lab ∈ getPeriodsInRange (Some 600) (Some 700) ∧ p_start lab <= 650 < p_end lab.
Proof.
  apply (proj2 (periods_cover_window 600 700 ltac:(lia)) 650); lia.
Defined.

(** ** The day columns *)

Section DayFacts.

Lemma setAdd_spec d set :
  (NoDup set → NoDup (setAdd d set))
  ∧ (∀ d', d' ∈ setAdd d set ↔ d' = d ∨ d' ∈ set).
Proof.
  unfold setAdd. destruct (decide (d ∈ set)) as [Hin | Hnin]; split.
  - done.
  - intros d'. split; [by right |]. by intros [-> | ?].
  - intros Hnd. apply NoDup_app. split; [assumption |].
    split; [| apply NoDup_singleton].
    intros x Hx Hx'. apply list_elem_of_singleton in Hx'. by subst.
  - intros d'. rewrite elem_of_app, list_elem_of_singleton. tauto.
Qed.

(** The set of days of the collecting loop: Monday to Friday and the days of
    the slots, each once. *)
Lemma collect_days entries :
  NoDup (daysSet (collect entries))
  ∧ ∀ d, d ∈ daysSet (collect entries) ↔
         d ∈ DEFAULT_DAYS ∨ ∃ s, s ∈ allSlots (collect entries) ∧ s_day s = d.
Proof.
  unfold collect.
  apply (fold_left_invariant
           (λ c, NoDup (daysSet c)
                 ∧ ∀ d, d ∈ daysSet c ↔
                        d ∈ DEFAULT_DAYS ∨ ∃ s, s ∈ allSlots c ∧ s_day s = d)).
  - intros acc entry Hacc. unfold collectEntry.
    apply fold_left_invariant; [| assumption].
    intros acc' slot [Hnd Hmem]. cbn [collectSlot daysSet allSlots].
    destruct (setAdd_spec (day slot) (daysSet acc')) as [H1 H2].
    split; [by apply H1 |]. intros d. rewrite H2, Hmem. split.
    + intros [-> | [Hd | (s & Hs & Hsd)]].
      * right. eexists. split; [apply elem_of_app; right; by left | reflexivity].
      * by left.
      * right. exists s. split; [apply elem_of_app; by left | assumption].
    + intros [Hd | (s & Hs & Hsd)]; [right; by left |].
      apply elem_of_app in Hs as [Hs | Hs].
      * right. right. eauto.
      * apply list_elem_of_singleton in Hs. subst s. left. by rewrite <- Hsd.
  - split.
    + cbn. unfold DEFAULT_DAYS. apply NoDup_ListNoDup.
      repeat (constructor; [cbn; intuition discriminate |]). constructor.
    + intros d. cbn. split; [by left |]. intros [Hd | (s & Hs & _)]; [done |].
      by apply elem_of_nil in Hs.
Qed.

(** A sorted list without repetition is strictly sorted when the key tells
    the elements apart. *)
Lemma sorted_strict {A : Type} (f : A → Z) l :
  (∀ a b, f a = f b → a = b) → NoDup l → StronglySorted (keyLe f) l →
  StronglySorted (λ a b, f a < f b) l.
Proof.
  intros Hinj Hnd Hs. induction Hs as [| x l _ IH Hx]; [constructor |].
  apply NoDup_cons in Hnd as [Hnin Hnd]. constructor; [by apply IH |].
  apply Forall_forall. intros y Hy. rewrite Forall_forall in Hx.
  specialize (Hx y Hy). unfold keyLe in Hx.
  destruct (Z.eq_dec (f x) (f y)) as [Heq | Hne]; [| lia].
  apply Hinj in Heq. by subst.
Qed.

End DayFacts.

(** X9.  The day columns.  Without an included-day set they are Monday to
    Friday together with every day on which a parsed slot falls, each once, in
    the order of the week; with an included-day set they are the days of that
    set in the order of the week. *)
Theorem day_columns (Number : list N → option Z) (entries : list TimetableEntry)
    (cs ce : option (list N)) (set : list DayIndex) :
  StronglySorted (λ a b, dayNumber a < dayNumber b)
    (days (layout Number entries (mkView cs ce None)))
  ∧ (∀ d, d ∈ days (layout Number entries (mkView cs ce None)) ↔
          d ∈ DEFAULT_DAYS ∨ ∃ s, s ∈ allSlots (collect entries) ∧ s_day s = d)
  ∧ StronglySorted (λ a b, dayNumber a <= dayNumber b)
      (days (layout Number entries (mkView cs ce (Some set))))
  ∧ days (layout Number entries (mkView cs ce (Some set))) ≡ₚ set.
Proof.
  unfold layout, resolveDays. cbn [days includedDays].
  destruct (collect_days entries) as [Hnd Hmem].
  split; [| split; [| split]].
  - apply sorted_strict; [apply dayNumber_inj | | apply sortBy_sorted].
    by rewrite sortBy_Permutation.
  - intros d. by rewrite sortBy_Permutation.
  - apply (sortBy_sorted dayNumber).
  - apply sortBy_Permutation.
Qed.

(** ** Stage A: what it keeps and what it does twice *)

Section StageAMore.

Lemma mergeRuns_first e d rs re rest :
  ∃ o tail, mergeRuns e d rs re rest = o :: tail ∧ s_start o = rs
    ∧ (Forall wellFormed rest → re <= s_end o).
Proof.
  revert rs re. induction rest as [| g rest IH]; intros rs re; cbn.
  - eexists _, _. split; [reflexivity |]. split; [reflexivity |]. cbn. lia.
  - destruct (s_start g =? re) eqn:Heq.
    + apply Z.eqb_eq in Heq.
      destruct (IH rs (s_end g)) as (o & tail & -> & Hs & He).
      exists o, tail. split; [reflexivity |]. split; [assumption |].
      intros [Hg Hwf]%Forall_cons. specialize (He Hwf).
      unfold wellFormed in Hg. lia.
    + eexists _, _. split; [reflexivity |]. split; [reflexivity |]. cbn. lia.
Qed.

Lemma mergeRuns_covers e d rs re rest :
  rs <= re → Forall wellFormed rest →
  Forall (λ g, ∃ o, o ∈ mergeRuns e d rs re rest ∧ covers o g) rest.
Proof.
  revert rs re. induction rest as [| g rest IH]; intros rs re Hr Hwf;
    [constructor |].
  pose proof Hwf as Hall. apply Forall_cons in Hwf as [Hg Hwf].
  unfold wellFormed in Hg. cbn [mergeRuns].
  destruct (s_start g =? re) eqn:Heq.
  - apply Z.eqb_eq in Heq. constructor; [| apply IH; [lia | assumption]].
    destruct (mergeRuns_first e d rs (s_end g) rest) as (o & tail & Ho & Hs & He).
    exists o. rewrite Ho. split; [by left |].
    specialize (He Hwf). unfold covers. lia.
  - constructor.
    + destruct (mergeRuns_first e d (s_start g) (s_end g) rest)
        as (o & tail & Ho & Hs & He).
      exists o. rewrite Ho. split; [right; by left |].
      specialize (He Hwf). unfold covers. lia.
    + eapply Forall_impl; [apply (IH (s_start g) (s_end g)); [lia | assumption] |].
      intros g' (o & Ho & Hc). exists o. split; [by right | assumption].
Qed.

Lemma mergeRuns_bounds e d rs re rest :
  Forall (λ o, (s_start o = rs ∨ ∃ g, g ∈ rest ∧ s_start o = s_start g)
               ∧ (s_end o = re ∨ ∃ g, g ∈ rest ∧ s_end o = s_end g))
    (mergeRuns e d rs re rest).
Proof.
  revert rs re. induction rest as [| g rest IH]; intros rs re; cbn.
  - repeat constructor.
  - destruct (s_start g =? re).
    + eapply Forall_impl; [apply IH |]. cbn.
      intros o [[Hs | (g' & Hg' & Hs)] [He | (g'' & Hg'' & He)]]; split;
        try (by left); right;
        first [ by (exists g; split; [left | assumption])
              | by (exists g'; split; [right | assumption])
              | by (exists g''; split; [right | assumption]) ].
    + constructor; [by split; left |].
      eapply Forall_impl; [apply IH |]. cbn.
      intros o [[Hs | (g' & Hg' & Hs)] [He | (g'' & Hg'' & He)]]; split;
        right;
        first [ by (exists g; split; [left | assumption])
              | by (exists g'; split; [right | assumption])
              | by (exists g''; split; [right | assumption]) ].
Qed.

Lemma stageAGroup_elem slots o :
  o ∈ mergeConsecutiveSlots slots ↔ o ∈ mergeGroup (withKey key (key o) slots).
Proof.
  rewrite <- mergeConsecutiveSlots_group. unfold withKey.
  rewrite !list_elem_of_In, filter_In, bool_decide_eq_true. tauto.
Qed.

Lemma withKey_elem {K V : Type} `{EqDecision K} (f : V → K) k (l : list V) v :
  v ∈ withKey f k l ↔ v ∈ l ∧ f v = k.
Proof.
  unfold withKey. by rewrite !list_elem_of_In, filter_In, bool_decide_eq_true.
Qed.

(** The sort leaves a list that is already in order as it is. *)
Lemma insertBy_at_end {A : Type} (f : A → Z) x l :
  Forall (λ y, f y <= f x) l → insertBy f x l = l ++ [x].
Proof.
  induction l as [| y l IH]; intros Hl; [reflexivity |].
  apply Forall_cons in Hl as [Hy Hl]. cbn.
  destruct (f x <? f y) eqn:Hxy; [apply Z.ltb_lt in Hxy; lia |].
  by rewrite IH.
Qed.

Lemma sortBy_of_sorted {A : Type} (f : A → Z) l :
  StronglySorted (keyLe f) l → sortBy f l = l.
Proof.
  induction l as [| x l IH] using rev_ind; intros Hs; [reflexivity |].
  apply StronglySorted_snoc_inv in Hs as [Hl Hx].
  rewrite sortBy_snoc, (IH Hl). by apply insertBy_at_end.
Qed.

Lemma mergeRuns_unmerged e d rs re rest : unmerged (mergeRuns e d rs re rest).
Proof.
  revert rs re. induction rest as [| g rest IH]; intros rs re; cbn [mergeRuns];
    [done |].
  destruct (s_start g =? re) eqn:Heq; [apply IH |].
  apply Z.eqb_neq in Heq. specialize (IH (s_start g) (s_end g)).
  destruct (mergeRuns_first e d (s_start g) (s_end g) rest) as (o & tail & Ho & Hs & _).
  rewrite Ho in *. cbn. split; [by rewrite Hs | assumption].
Qed.

(** The scan leaves a list of runs that it produced as it is. *)
Lemma mergeRuns_fixed e d rs re tail :
  Forall (λ o, s_entry o = e ∧ s_day o = d) tail →
  unmerged (mkSlot e d rs re :: tail) →
  mergeRuns e d rs re tail = mkSlot e d rs re :: tail.
Proof.
  revert rs re. induction tail as [| o tail IH]; intros rs re Hown Hun;
    [reflexivity |].
  apply Forall_cons in Hown as [[He Hd] Hown]. destruct Hun as [Hne Hun].
  cbn in Hne. cbn [mergeRuns]. apply Z.eqb_neq in Hne. rewrite Hne. f_equal.
  destruct o as [oe od os oend]. cbn in *. subst oe od. by apply IH.
Qed.

Lemma mergeGroup_idempotent group : mergeGroup (mergeGroup group) = mergeGroup group.
Proof.
  pose proof (mergeGroup_sorted group) as Hs.
  unfold mergeGroup at 1. rewrite (sortBy_of_sorted _ _ Hs).
  unfold mergeGroup in *.
  destruct (sortBy s_start group) as [| g0 rest]; [reflexivity |].
  pose proof (mergeRuns_owner (s_entry g0) (s_day g0) (s_start g0) (s_end g0) rest)
    as Hown.
  pose proof (mergeRuns_unmerged (s_entry g0) (s_day g0) (s_start g0) (s_end g0) rest)
    as Hun.
  destruct (mergeRuns (s_entry g0) (s_day g0) (s_start g0) (s_end g0) rest)
    as [| o tail]; [reflexivity |].
  apply Forall_cons in Hown as [[He Hd] Hown].
  destruct o as [oe od os oend]. cbn in *. subst oe od. by apply mergeRuns_fixed.
Qed.

Lemma mergeGroup_nonempty group : group ≠ [] → mergeGroup group ≠ [].
Proof.
  intros Hne. unfold mergeGroup.
  destruct (sortBy s_start group) as [| g0 rest] eqn:Hs.
  - exfalso. apply Hne. apply Permutation_nil_r. rewrite <- Hs. symmetry.
    apply sortBy_Permutation.
  - destruct (mergeRuns_first (s_entry g0) (s_day g0) (s_start g0) (s_end g0) rest)
      as (o & tail & -> & _). done.
Qed.

Lemma firstSeen_app_constant {K : Type} `{EqDecision K} (l l' : list K) k :
  l' ≠ [] → Forall (λ x, x = k) l' → k ∉ firstSeen l →
  firstSeen (l ++ l') = firstSeen l ++ [k].
Proof.
  induction l' as [| x l' IH] using rev_ind; [done |]. intros _ Hall Hk.
  apply Forall_app in Hall as [Hl' Hx]. apply Forall_inv in Hx. subst x.
  rewrite app_assoc, firstSeen_snoc. destruct l' as [| y l''].
  - rewrite app_nil_r. by rewrite decide_False.
  - rewrite IH by done. rewrite decide_True; [done |].
    apply elem_of_app. right. by left.
Qed.

Lemma firstSeen_flat_map {K V : Type} `{EqDecision K} (f : V → K) (h : K → list V)
    (keys : list K) :
  NoDup keys → (∀ k, k ∈ keys → h k ≠ [] ∧ Forall (λ v, f v = k) (h k)) →
  firstSeen (map f (flat_map h keys)) = keys.
Proof.
  induction keys as [| k keys IH] using rev_ind; intros Hnd Hh; [reflexivity |].
  apply NoDup_app in Hnd as (Hnd & Hdisj & _).
  rewrite flat_map_app, map_app. cbn [flat_map]. rewrite app_nil_r.
  assert (IH' : firstSeen (map f (flat_map h keys)) = keys).
  { apply IH; [assumption |]. intros k' Hk'. apply Hh, elem_of_app. by left. }
  destruct (Hh k) as [Hne Hall]; [apply elem_of_app; right; by left |].
  rewrite (firstSeen_app_constant _ _ k).
  - by rewrite IH'.
  - by destruct (h k).
  - by apply Forall_fmap.
  - rewrite IH'. intros Hin. apply (Hdisj k Hin). by left.
Qed.

End StageAMore.

Lemma mergeConsecutiveSlots_covers (slots : list SlotInput) (s : SlotInput) :
  s ∈ slots → Forall wellFormed (withKey key (key s) slots) →
  ∃ o, o ∈ mergeConsecutiveSlots slots ∧ key o = key s ∧ covers o s.
Proof.
  intros Hs Hwf.
  assert (Hin : s ∈ sortBy s_start (withKey key (key s) slots)).
  { rewrite sortBy_Permutation. by apply withKey_elem. }
  assert (Hwf' : Forall wellFormed (sortBy s_start (withKey key (key s) slots)))
    by (by rewrite sortBy_Permutation).
  assert (Hout : ∃ o, o ∈ mergeGroup (withKey key (key s) slots) ∧ covers o s).
  { unfold mergeGroup.
    destruct (sortBy s_start (withKey key (key s) slots)) as [| g0 rest];
      [by apply elem_of_nil in Hin |].
    apply Forall_cons in Hwf' as [Hg0 Hrest]. unfold wellFormed in Hg0.
    apply elem_of_cons in Hin as [-> | Hin].
    - destruct (mergeRuns_first (s_entry g0) (s_day g0) (s_start g0) (s_end g0) rest)
        as (o & tail & Ho & Hst & He).
      exists o. rewrite Ho. split; [by left |]. specialize (He Hrest).
      unfold covers. lia.
    - pose proof (mergeRuns_covers (s_entry g0) (s_day g0) (s_start g0) (s_end g0)
                    rest ltac:(lia) Hrest) as Hc.
      rewrite Forall_forall in Hc. by apply Hc. }
  destruct Hout as (o & Ho & Hc). exists o.
  rewrite <- mergeConsecutiveSlots_group in Ho.
  apply withKey_elem in Ho as [Ho Hk]. split; [assumption |]. by split.
Qed.

(** X10.  Stage A loses no time: every input slot whose group holds non-empty
    slots lies inside an output interval of the same key. *)
Theorem stageA_covers_input (slots : list SlotInput) (s : SlotInput) :
  s ∈ slots → Forall wellFormed (withKey key (key s) slots) →
  ∃ o, o ∈ mergeConsecutiveSlots slots ∧ key o = key s ∧ covers o s.
Proof. apply mergeConsecutiveSlots_covers. Qed.

Lemma stageA_covers_input_witness :
  ∃ o, o ∈ mergeConsecutiveSlots [a3; b2; a2] ∧ key o = key a3 ∧ covers o a3.
Proof.
  apply (stageA_covers_input [a3; b2; a2] a3); [left |].
  repeat constructor; unfold wellFormed; cbn; lia.
Defined.

Lemma mergeConsecutiveSlots_origin (slots : list SlotInput) (o : SlotInput) :
  o ∈ mergeConsecutiveSlots slots →
  ∃ s0 s1 s2, s0 ∈ slots ∧ s1 ∈ slots ∧ s2 ∈ slots
    ∧ key s0 = key o ∧ key s1 = key o ∧ key s2 = key o
    ∧ s_entry o = s_entry s0 ∧ s_day o = s_day s0
    ∧ s_start o = s_start s1 ∧ s_end o = s_end s2.
Proof.
  intros Ho. apply stageAGroup_elem in Ho. unfold mergeGroup in Ho.
  pose proof (sortBy_Permutation s_start (withKey key (key o) slots)) as Hp.
  destruct (sortBy s_start (withKey key (key o) slots)) as [| g0 rest];
    [by apply elem_of_nil in Ho |].
  assert (Hsub : ∀ x, x ∈ g0 :: rest → x ∈ slots ∧ key x = key o).
  { intros x Hx. rewrite Hp in Hx. by apply withKey_elem in Hx. }
  pose proof (mergeRuns_owner (s_entry g0) (s_day g0) (s_start g0) (s_end g0) rest)
    as Hown.
  pose proof (mergeRuns_bounds (s_entry g0) (s_day g0) (s_start g0) (s_end g0) rest)
    as Hb.
  rewrite Forall_forall in Hown, Hb.
  destruct (Hown o Ho) as [He Hd]. destruct (Hb o Ho) as [Hs Hend].
  destruct (Hsub g0 ltac:(by left)) as [Hg0 Hk0].
  assert (H1 : ∃ s1, s1 ∈ slots ∧ key s1 = key o ∧ s_start o = s_start s1).
  { destruct Hs as [Hs | (g & Hg & Hs)]; [by exists g0 |].
    destruct (Hsub g ltac:(by right)). by exists g. }
  assert (H2 : ∃ s2, s2 ∈ slots ∧ key s2 = key o ∧ s_end o = s_end s2).
  { destruct Hend as [Hend | (g & Hg & Hend)]; [by exists g0 |].
    destruct (Hsub g ltac:(by right)). by exists g. }
  destruct H1 as (s1 & ? & ? & ?). destruct H2 as (s2 & ? & ? & ?).
  exists g0, s1, s2. by repeat split.
Qed.

(** X11.  Every interval that Stage A returns starts where a slot of its group
    starts and ends where a slot of its group ends, and it carries the entry
    and the day of a slot of that group. *)
Theorem stageA_output_origin (slots : list SlotInput) (o : SlotInput) :
  o ∈ mergeConsecutiveSlots slots →
  ∃ s0 s1 s2, s0 ∈ slots ∧ s1 ∈ slots ∧ s2 ∈ slots
    ∧ key s0 = key o ∧ key s1 = key o ∧ key s2 = key o
    ∧ s_entry o = s_entry s0 ∧ s_day o = s_day s0
    ∧ s_start o = s_start s1 ∧ s_end o = s_end s2.
Proof. apply mergeConsecutiveSlots_origin. Qed.

Lemma stageA_output_origin_witness :
  ∃ s0 s1 s2, s0 ∈ [a3; b2; a2] ∧ s1 ∈ [a3; b2; a2] ∧ s2 ∈ [a3; b2; a2]
    ∧ key s0 = key (mkSlot courseA D1 630 810)
    ∧ key s1 = key (mkSlot courseA D1 630 810)
    ∧ key s2 = key (mkSlot courseA D1 630 810)
    ∧ s_entry (mkSlot courseA D1 630 810) = s_entry s0
    ∧ s_day (mkSlot courseA D1 630 810) = s_day s0
    ∧ s_start (mkSlot courseA D1 630 810) = s_start s1
    ∧ s_end (mkSlot courseA D1 630 810) = s_end s2.
Proof.
  apply (stageA_output_origin [a3; b2; a2] (mkSlot courseA D1 630 810)).
  vm_compute. left.
Defined.

(** X12.  Stage A is idempotent: merging the consecutive slots of its own
    output changes nothing, for every input. *)
Theorem mergeConsecutiveSlots_idempotent (slots : list SlotInput) :
  mergeConsecutiveSlots (mergeConsecutiveSlots slots) = mergeConsecutiveSlots slots.
Proof.
  assert (Hkeys : firstSeen (map key (mergeConsecutiveSlots slots))
                  = firstSeen (map key slots)).
  { unfold mergeConsecutiveSlots. rewrite groupBy_spec, flat_map_concat_map, map_map.
    rewrite <- flat_map_concat_map. cbn [snd].
    apply firstSeen_flat_map; [apply firstSeen_NoDup |].
    intros k Hk. split; [| apply mergeGroup_key, withKey_Forall].
    apply mergeGroup_nonempty. rewrite firstSeen_elem in Hk.
    intros Hnil. by apply withKey_nil_iff in Hnil. }
  unfold mergeConsecutiveSlots at 1. rewrite groupBy_spec, Hkeys.
  rewrite flat_map_concat_map, map_map. cbn [snd].
  unfold mergeConsecutiveSlots at 2. rewrite groupBy_spec.
  rewrite flat_map_concat_map, map_map. cbn [snd]. f_equal.
  apply map_ext. intros k.
  by rewrite mergeConsecutiveSlots_group, mergeGroup_idempotent.
Qed.

(** ** The consolidator as a whole *)

Section ConsolidatorFacts.




(** The closed form of the collecting loop: the parsed slots of every entry,
    in order. *)
Lemma collect_allSlots entries :
  allSlots (collect entries) =
    flat_map (λ e, map (λ slot, mkSlot e (day slot) (startMinutes slot)
                                  (endMinutes slot))
                     (parseLectureTime (강의시간 e))) entries.
Proof.
  unfold collect.
  set (f := λ e, map (λ slot, mkSlot e (day slot) (startMinutes slot)
                                 (endMinutes slot))
                   (parseLectureTime (강의시간 e))).
  assert (Hentry : ∀ acc e, allSlots (collectEntry acc e) = allSlots acc ++ f e).
  { intros acc e. unfold collectEntry, f.
    generalize (parseLectureTime (강의시간 e)). intros l. revert acc.
    induction l as [| slot l IH]; intros acc; cbn; [by rewrite app_nil_r |].
    rewrite IH. cbn. by rewrite <- app_assoc. }
  assert (Hall : ∀ acc, allSlots (fold_left collectEntry entries acc)
                        = allSlots acc ++ flat_map f entries).
  { induction entries as [| e entries IH]; intros acc; cbn;
      [by rewrite app_nil_r |].
    rewrite IH, Hentry. by rewrite <- app_assoc. }
  by rewrite Hall.
Qed.

Lemma dayString_inj d d' : dayString d = dayString d' → d = d'.
Proof. by destruct d, d'. Qed.

Lemma key_entryId s :
  key s = entryId (s_entry s) ++ [dash] ++ dayString (s_day s).
Proof. unfold key, entryId. by rewrite <- !app_assoc. Qed.

(** The key of a slot determines the identifier of its entry and its day. *)
Lemma key_inv a b :
  key a = key b → entryId (s_entry a) = entryId (s_entry b) ∧ s_day a = s_day b.
Proof.
  rewrite !key_entryId. intros H.
  apply app_inj_2 in H as [H1 H2]; [| by destruct (s_day a), (s_day b)].
  split; [assumption |]. cbn [app] in H2. injection H2 as H2.
  apply dayString_inj. unfold dayString. by rewrite H2.
Qed.


(** A well-formed interval is in a block of its day. *)
Lemma block_of_interval L o :
  Forall wellFormed L → o ∈ L →
  ∃ g, g ∈ dayGroups (withKey s_day (s_day o) L) ∧ o ∈ g_slots g
    ∧ spansMembers g ∧ emitBlock (s_day o) g ∈ mergeOverlappingSlots L.
Proof.
  intros Hwf Ho.
  assert (Hwd : Forall wellFormed (withKey s_day (s_day o) L)).
  { apply Forall_forall. intros x [Hx _]%withKey_elem.
    rewrite Forall_forall in Hwf. by apply Hwf. }
  destruct (dayGroups_groupsOf _ Hwd) as (Hcat & Hspan & _ & _).
  assert (Hin : o ∈ concat (map g_slots (dayGroups (withKey s_day (s_day o) L)))).
  { rewrite Hcat, sortBy_Permutation. by apply withKey_elem. }
  apply elem_of_groups in Hin as (g & Hg & Hog). exists g.
  split; [assumption |]. split; [assumption |].
  rewrite Forall_forall in Hspan. split; [by apply Hspan |].
  rewrite mergeOverlappingSlots_days. apply list_elem_of_In, in_flat_map.
  exists (s_day o). split.
  - apply list_elem_of_In, firstSeen_elem, list_elem_of_fmap. eauto.
  - apply list_elem_of_In, list_elem_of_fmap. eauto.
Qed.



End ConsolidatorFacts.


(** X14.  The consolidator loses no slot: every slot parsed from the schedule
    of an entry lies, on its day, inside a display block whose entries hold
    the identifier of that entry. *)
Theorem display_blocks_cover_slots (entries : list TimetableEntry)
    (e : TimetableEntry) (slot : LectureSlot) :
  e ∈ entries → slot ∈ parseLectureTime (강의시간 e) →
  ∃ b, b ∈ displayBlocks entries ∧ b_day b = day slot
    ∧ b_start b <= startMinutes slot ∧ endMinutes slot <= b_end b
    ∧ entryId e ∈ map entryId (b_entries b).
Proof.
  intros He Hslot.
  set (s := mkSlot e (day slot) (startMinutes slot) (endMinutes slot)).
  assert (Hs : s ∈ allSlots (collect entries)).
  { rewrite collect_allSlots. apply list_elem_of_In, in_flat_map.
    exists e. split; [by apply list_elem_of_In |].
    apply list_elem_of_In, list_elem_of_fmap. eauto. }
  pose proof (collect_wellFormed entries) as Hwf.
  destruct (mergeConsecutiveSlots_covers _ s Hs) as (o & Ho & Hk & Hs1 & Hs2).
  { apply Forall_forall. intros x [Hx _]%withKey_elem.
    rewrite Forall_forall in Hwf. by apply Hwf. }
  apply key_inv in Hk as [Hid Hday].
  destruct (block_of_interval _ o (pipeline_intervals_wellFormed entries) Ho)
    as (g & Hg & Hog & (_ & Hbound & _) & Hb).
  exists (emitBlock (s_day o) g). split; [exact Hb |].
  rewrite Forall_forall in Hbound. destruct (Hbound o Hog) as [Hb1 Hb2].
  cbn in *. split; [assumption |]. split; [lia |]. split; [lia |].
  rewrite groupEntries_keepFirst, keepFirstBy_ids, <- Hid.
  apply list_elem_of_fmap. exists (s_entry o). split; [reflexivity |].
  apply list_elem_of_fmap. eauto.
Qed.

Lemma display_blocks_cover_slots_witness :
  ∃ b, b ∈ displayBlocks [courseA; courseB] ∧ b_day b = D1
    ∧ b_start b <= 720 ∧ 810 <= b_end b
    ∧ entryId courseA ∈ map entryId (b_entries b).
Proof.
  apply (display_blocks_cover_slots [courseA; courseB] courseA
           (mkLectureSlot D1 720 810)); [left |].
  vm_compute. right. left.
Defined.

(** ** The position of a block *)

Section PositionFacts.

Lemma clampPercent_pct x T :
  clampPercent (Some x) (Some T) = Some (Qmin 100 (Qmax 0 (pct x T))).
Proof. reflexivity. Qed.









End PositionFacts.




(** ** The grid without overrides *)

Section DefaultGrid.
Variable Number : list N → option Z.





End DefaultGrid.


(** ** The colour of a course code *)

Section ColorFacts.

Lemma toInt32_range z : - 2 ^ 31 <= toInt32 z < 2 ^ 31.
Proof.
  unfold toInt32.
  pose proof (Z.mod_pos_bound (z + 2 ^ 31) (2 ^ 32) ltac:(lia)). lia.
Qed.

Lemma toInt32_shift z k : toInt32 (z + k * 2 ^ 32) = toInt32 z.
Proof.
  unfold toInt32.
  replace (z + k * 2 ^ 32 + 2 ^ 31) with (z + 2 ^ 31 + k * 2 ^ 32) by lia.
  by rewrite Z_mod_plus_full.
Qed.

Lemma toInt32_offset z : ∃ k, toInt32 z = z + k * 2 ^ 32.
Proof.
  exists (- ((z + 2 ^ 31) `div` 2 ^ 32)). unfold toInt32.
  rewrite Z.mod_eq by lia. lia.
Qed.

Lemma hashStep_toInt32 p c :
  hashStep (toInt32 p) c = toInt32 (31 * p + Z.of_N c).
Proof.
  unfold hashStep. rewrite Z.lor_0_r, Z.shiftl_mul_pow2 by lia.
  destruct (toInt32_offset p) as [k1 E1]. rewrite E1.
  destruct (toInt32_offset (p + k1 * 2 ^ 32)) as [k2 E2]. rewrite E2.
  destruct (toInt32_offset ((p + k1 * 2 ^ 32 + k2 * 2 ^ 32) * 2 ^ 5)) as [k3 E3].
  rewrite E3.
  replace ((p + k1 * 2 ^ 32 + k2 * 2 ^ 32) * 2 ^ 5 + k3 * 2 ^ 32
           - (p + k1 * 2 ^ 32) + Z.of_N c)
    with (31 * p + Z.of_N c + (31 * k1 + 32 * k2 + k3) * 2 ^ 32) by lia.
  apply toInt32_shift.
Qed.

Lemma simpleHash_snoc str c :
  simpleHash (str ++ [c]) = hashStep (simpleHash str) c.
Proof. unfold simpleHash. by rewrite fold_left_app. Qed.

Lemma polyHash_snoc str c :
  polyHash (str ++ [c]) = 31 * polyHash str + Z.of_N c.
Proof. unfold polyHash. by rewrite fold_left_app. Qed.

Lemma simpleHash_polyHash str : simpleHash str = toInt32 (polyHash str).
Proof.
  induction str as [| c str IH] using rev_ind; [reflexivity |].
  by rewrite simpleHash_snoc, polyHash_snoc, IH, hashStep_toInt32.
Qed.

End ColorFacts.

(** X18.  [simpleHash] is the base-31 polynomial of the code units of the
    string, reduced to a signed 32-bit integer: wrapping after every character
    loses nothing against wrapping once at the end. *)
Theorem simpleHash_is_wrapped_polynomial (str : list N) :
  simpleHash str = toInt32 (polyHash str)
  ∧ - 2 ^ 31 <= simpleHash str < 2 ^ 31
  ∧ (simpleHash str - polyHash str) `mod` 2 ^ 32 = 0.
Proof.
  pose proof (simpleHash_polyHash str) as E. split; [exact E |]. split.
  - rewrite E. apply toInt32_range.
  - rewrite E. destruct (toInt32_offset (polyHash str)) as [k ->].
    replace (polyHash str + k * 2 ^ 32 - polyHash str) with (k * 2 ^ 32) by lia.
    apply Z_mod_mult.
Qed.

(** X19.  The colour of a course code has a hue from 0 to 359, whatever the
    sign of the hash, and the fixed saturation 52 and lightness 48; the hue
    differs from the hash or from its opposite by a multiple of 360. *)
Theorem courseCodeToColor_hue (code : list N) :
  0 <= hsl_h (courseCodeToColor code) < 360
  ∧ hsl_s (courseCodeToColor code) = 52
  ∧ hsl_l (courseCodeToColor code) = 48
  ∧ ((hsl_h (courseCodeToColor code) - simpleHash code) `mod` 360 = 0
     ∨ (hsl_h (courseCodeToColor code) + simpleHash code) `mod` 360 = 0).
Proof.
  unfold courseCodeToColor. cbn [hsl_h hsl_s hsl_l].
  set (h := simpleHash code).
  assert (Hr : Z.abs h `rem` 360 = Z.abs h `mod` 360)
    by (apply Z.rem_mod_nonneg; lia).
  rewrite Hr.
  pose proof (Z.mod_pos_bound (Z.abs h) 360 ltac:(lia)) as Hb.
  split; [lia |]. split; [reflexivity |]. split; [reflexivity |].
  assert (Hm : ∀ x, (x `mod` 360 - x) `mod` 360 = 0).
  { intros x. rewrite (Z.mod_eq x 360) by lia.
    replace (x - 360 * (x `div` 360) - x) with (- (x `div` 360) * 360) by lia.
    apply Z_mod_mult. }
  destruct (Z.abs_spec h) as [[_ ->] | [_ ->]].
  - left. apply Hm.
  - right. specialize (Hm (- h)).
    by replace ((- h) `mod` 360 - - h) with ((- h) `mod` 360 + h) in Hm by lia.
Qed.

(** ** The cart and the checked entries *)

Section SearchFacts.

Lemma strictEq_true a b : strictEq a b = true ↔ a = b.
Proof. unfold strictEq. apply bool_decide_eq_true. Qed.

Lemma isSameEntry_spec a b :
  isSameEntry a b = true ↔
  학정번호 a = 학정번호 b ∧ 분반 a = 분반 b ∧ 강의시간 a = 강의시간 b
  ∧ 담당교수 a = 담당교수 b.
Proof.
  unfold isSameEntry. rewrite !andb_true_iff, !strictEq_true. tauto.
Qed.

Lemma isSameEntry_refl a : isSameEntry a a = true.
Proof. by apply isSameEntry_spec. Qed.

Lemma isSameEntry_key a b : isSameEntry a b = true → entryKey a = entryKey b.
Proof.
  intros (H1 & H2 & H3 & H4)%isSameEntry_spec. unfold entryKey. congruence.
Qed.

(** Two strings cut at a separator that neither prefix holds. *)
Lemma separator_inj (sep : N) (a a' r r' : list N) :
  sep ∉ a → sep ∉ a' → a ++ sep :: r = a' ++ sep :: r' → a = a' ∧ r = r'.
Proof.
  revert a'. induction a as [| x a IH]; intros [| y a'] Ha Ha' E; cbn in E.
  - by injection E as ->.
  - injection E as <- _. exfalso. apply Ha'. left.
  - injection E as -> _. exfalso. apply Ha. left.
  - injection E as -> E.
    destruct (IH a') as [-> ->]; try done.
    + intros H. apply Ha. by right.
    + intros H. apply Ha'. by right.
Qed.

Lemma entryKey_same a b :
  barFree a → barFree b → entryKey a = entryKey b → isSameEntry a b = true.
Proof.
  intros (A1 & A2 & A3) (B1 & B2 & B3) E. unfold entryKey in E. cbn [app] in E.
  apply separator_inj in E as [E1 E]; [| assumption ..].
  apply separator_inj in E as [E2 E]; [| assumption ..].
  apply separator_inj in E as [E3 E4]; [| assumption ..].
  by apply isSameEntry_spec.
Qed.

(** The operations of the set of keys. *)
Lemma setAddKey_elem k x set : x ∈ setAddKey k set ↔ x ∈ set ∨ x = k.
Proof.
  unfold setAddKey. destruct (decide (k ∈ set)) as [Hin | Hnin].
  - split; [by left | by intros [? | ->]].
  - rewrite elem_of_app, list_elem_of_singleton. tauto.
Qed.

Lemma setAddKey_NoDup k set : NoDup set → NoDup (setAddKey k set).
Proof.
  intros Hnd. unfold setAddKey. destruct (decide (k ∈ set)) as [Hin | Hnin];
    [assumption |].
  apply NoDup_app. split; [assumption |]. split.
  - intros x Hx ->%list_elem_of_singleton. contradiction.
  - apply NoDup_singleton.
Qed.

Lemma setDelete_elem k x set : x ∈ setDelete k set ↔ x ∈ set ∧ x ≠ k.
Proof.
  unfold setDelete. rewrite list_elem_of_In, filter_In, <- list_elem_of_In.
  rewrite negb_true_iff, bool_decide_eq_false. tauto.
Qed.

Lemma filter_NoDup {A : Type} (p : A → bool) (l : list A) :
  NoDup l → NoDup (List.filter p l).
Proof.
  induction 1 as [| x l Hx Hnd IH]; cbn; [constructor |].
  destruct (p x); [| assumption].
  constructor; [| assumption].
  rewrite list_elem_of_In, filter_In, <- list_elem_of_In. tauto.
Qed.

Lemma setDelete_NoDup k set : NoDup set → NoDup (setDelete k set).
Proof. apply filter_NoDup. Qed.

Lemma setOf_firstSeen l : setOf l = firstSeen l.
Proof. reflexivity. Qed.

Lemma setOf_elem l x : x ∈ setOf l ↔ x ∈ l.
Proof. rewrite setOf_firstSeen. apply firstSeen_elem. Qed.

Lemma setOf_NoDup l : NoDup (setOf l).
Proof. rewrite setOf_firstSeen. apply firstSeen_NoDup. Qed.

Lemma setOf_of_NoDup l : NoDup l → setOf l = l.
Proof.
  rewrite setOf_firstSeen.
  induction l as [| x l IH] using rev_ind; intros Hnd; [reflexivity |].
  apply NoDup_app in Hnd as (Hl & Hx & _).
  rewrite firstSeen_snoc, (IH Hl).
  destruct (decide (x ∈ l)) as [Hin | Hnin]; [| reflexivity].
  exfalso. apply (Hx x Hin). left.
Qed.

Lemma setDelete_setAddKey k set : k ∉ set → setDelete k (setAddKey k set) = set.
Proof.
  intros Hk. unfold setAddKey. rewrite decide_False by assumption.
  unfold setDelete. rewrite List.filter_app. cbn.
  rewrite bool_decide_true by reflexivity. cbn. rewrite app_nil_r.
  induction set as [| x set IH]; [reflexivity |]. cbn.
  rewrite bool_decide_false.
  - cbn. f_equal. apply IH. intros H. apply Hk. by right.
  - intros ->. apply Hk. left.
Qed.

Lemma filter_all {A : Type} (p : A → bool) (l : list A) :
  (∀ x, x ∈ l → p x = true) → List.filter p l = l.
Proof.
  induction l as [| x l IH]; intros H; [reflexivity |]. cbn.
  rewrite (H x) by left. f_equal. apply IH. intros y Hy. apply H. by right.
Qed.

Lemma timetableCheckedFromSaved_elem saved crt k :
  k ∈ timetableCheckedFromSaved saved crt ↔
  k ∈ saved ∧ ∃ c, c ∈ crt ∧ entryKey c = k.
Proof.
  unfold timetableCheckedFromSaved, setHas.
  rewrite setOf_elem, list_elem_of_In, filter_In, <- list_elem_of_In.
  rewrite bool_decide_eq_true, setOf_elem, list_elem_of_fmap.
  split; intros [Hs (c & H1 & H2)]; (split; [assumption |]); exists c; by split.
Qed.

Lemma timetableCheckedFromSaved_consistent saved crt p sv :
  consistent (mkState crt p sv (timetableCheckedFromSaved saved crt)).
Proof.
  split; cbn [timetableChecked cart].
  - apply setOf_NoDup.
  - by intros k [_ H]%timetableCheckedFromSaved_elem.
Qed.

(** Checked keys that are keys of the cart survive the reload. *)
Lemma timetableCheckedFromSaved_fixed st :
  consistent st →
  timetableCheckedFromSaved (timetableChecked st) (cart st) = timetableChecked st.
Proof.
  intros [Hnd Hk]. unfold timetableCheckedFromSaved.
  rewrite filter_all; [by apply setOf_of_NoDup |].
  intros k Hin. unfold setHas. apply bool_decide_eq_true.
  apply setOf_elem. destruct (Hk k Hin) as (c & Hc & <-).
  by apply list_elem_of_fmap_2.
Qed.

Lemma removal_consistent e st :
  consistent st →
  consistent (mkState (List.filter (λ c, negb (isSameEntry c e)) (cart st))
                (currentPriority st) (savedTimetables st)
                (setDelete (entryKey e) (timetableChecked st))).
Proof.
  intros [Hnd Hk]. split; cbn [timetableChecked cart].
  - by apply setDelete_NoDup.
  - intros k [Hin Hne]%setDelete_elem. destruct (Hk k Hin) as (c & Hc & <-).
    exists c. split; [| reflexivity].
    rewrite list_elem_of_In, filter_In, <- list_elem_of_In.
    split; [assumption |]. apply negb_true_iff.
    destruct (isSameEntry c e) eqn:E; [| reflexivity].
    exfalso. apply Hne. by apply isSameEntry_key.
Qed.

Lemma addition_consistent e st :
  consistent st →
  consistent (mkState (cart st ++ [e]) (currentPriority st) (savedTimetables st)
                (setAddKey (entryKey e) (timetableChecked st))).
Proof.
  intros [Hnd Hk]. split; cbn [timetableChecked cart].
  - by apply setAddKey_NoDup.
  - intros k [Hin | ->]%setAddKey_elem.
    + destruct (Hk k Hin) as (c & Hc & <-). exists c.
      split; [| reflexivity]. apply elem_of_app. by left.
    + exists e. split; [| reflexivity]. apply elem_of_app. right. left.
Qed.

Lemma toggleCart_consistent e st : consistent st → consistent (toggleCart e st).
Proof.
  intros H. unfold toggleCart.
  destruct (existsb _ _); [by apply removal_consistent | by apply addition_consistent].
Qed.

Lemma switchPriority_consistent p st :
  consistent st → consistent (switchPriority p st).
Proof.
  intros H. unfold switchPriority.
  destruct (decide (p = currentPriority st)); [assumption |].
  apply timetableCheckedFromSaved_consistent.
Qed.

Lemma toggleTimetable_consistent e st :
  e ∈ cart st → consistent st → consistent (toggleTimetable e st).
Proof.
  intros He [Hnd Hk]. unfold toggleTimetable.
  destruct (setHas _ _); split; cbn [timetableChecked cart].
  - by apply setDelete_NoDup.
  - intros k [Hin _]%setDelete_elem. by apply Hk.
  - by apply setAddKey_NoDup.
  - intros k [Hin | ->]%setAddKey_elem; [by apply Hk |]. by exists e.
Qed.

Lemma addCustomEntry_consistent u t time cr st :
  consistent st → consistent (addCustomEntry u t time cr st).
Proof.
  intros H. unfold addCustomEntry.
  destruct (bool_decide _); [assumption | by apply addition_consistent].
Qed.

Lemma reachable_consistent st : reachable st → consistent st.
Proof.
  induction 1.
  - apply timetableCheckedFromSaved_consistent.
  - by apply switchPriority_consistent.
  - by apply toggleCart_consistent.
  - by apply removal_consistent.
  - by apply toggleTimetable_consistent.
  - by apply addCustomEntry_consistent.
Qed.

End SearchFacts.

(** X20.  Entries that [isSameEntry] identifies have the same key; and when
    no bar occurs in the course code, the section and the schedule of two
    entries, their keys are equal only if [isSameEntry] identifies them. *)
Theorem entryKey_identifies (a b : TimetableEntry) :
  (isSameEntry a b = true → entryKey a = entryKey b)
  ∧ (barFree a → barFree b → entryKey a = entryKey b → isSameEntry a b = true).
Proof.
  split; [apply isSameEntry_key | apply entryKey_same].
Qed.

(** X21.  In every state that the handlers lead to, from whatever was loaded,
    the checked keys are pairwise different and they are exactly the keys of
    the entries shown on the timetable: no key is checked whose entry has left
    the cart. *)
Theorem checked_keys_are_shown (st : SearchState) :
  reachable st →
  NoDup (timetableChecked st)
  ∧ ∀ k, k ∈ timetableChecked st ↔ k ∈ map entryKey (entriesOnTimetable st).
Proof.
  intros [Hnd Hk]%reachable_consistent. split; [assumption |].
  intros k. unfold entriesOnTimetable, setHas. rewrite list_elem_of_fmap. split.
  - intros Hin. destruct (Hk k Hin) as (c & Hc & <-). exists c.
    split; [reflexivity |].
    rewrite list_elem_of_In, filter_In, <- list_elem_of_In.
    split; [assumption | by apply bool_decide_eq_true].
  - intros (c & -> & Hc).
    rewrite list_elem_of_In, filter_In, <- list_elem_of_In in Hc.
    destruct Hc as [_ Hc]. by apply bool_decide_eq_true in Hc.
Qed.

Lemma checked_keys_are_shown_witness :
  NoDup (timetableChecked (toggleCart courseA (initialState [courseB] P1 (λ _, []))))
  ∧ ∀ k, k ∈ timetableChecked (toggleCart courseA (initialState [courseB] P1 (λ _, [])))
       ↔ k ∈ map entryKey
               (entriesOnTimetable
                  (toggleCart courseA (initialState [courseB] P1 (λ _, [])))).
Proof.
  apply (checked_keys_are_shown
           (toggleCart courseA (initialState [courseB] P1 (λ _, [])))).
  apply reach_toggleCart, reach_initial.
Defined.

(** X22.  Putting an entry into the cart and taking it out again restores the
    state, when the cart held no entry that [isSameEntry] identifies with it
    and its key was not checked. *)
Theorem toggleCart_twice (e : TimetableEntry) (st : SearchState) :
  existsb (λ c, isSameEntry c e) (cart st) = false →
  entryKey e ∉ timetableChecked st →
  toggleCart e (toggleCart e st) = st.
Proof.
  intros Hex Hk. destruct st as [crt p sv chk]. cbn [cart timetableChecked] in *.
  unfold toggleCart at 2. cbn [cart timetableChecked currentPriority savedTimetables].
  rewrite Hex. unfold toggleCart.
  cbn [cart timetableChecked currentPriority savedTimetables].
  rewrite existsb_app. cbn [existsb]. rewrite isSameEntry_refl. cbn [orb].
  rewrite orb_true_r.
  rewrite List.filter_app. cbn [List.filter]. rewrite isSameEntry_refl. cbn [negb].
  rewrite app_nil_r, setDelete_setAddKey by assumption.
  f_equal. apply filter_all. intros c Hc. apply negb_true_iff.
  destruct (isSameEntry c e) eqn:E; [| reflexivity].
  assert (existsb (λ c, isSameEntry c e) crt = true); [| congruence].
  apply existsb_exists. exists c. split; [by apply list_elem_of_In | assumption].
Qed.

Lemma toggleCart_twice_witness :
  toggleCart courseA (toggleCart courseA (initialState [courseB] P1 (λ _, [])))
  = initialState [courseB] P1 (λ _, []).
Proof.
  apply toggleCart_twice.
  - reflexivity.
  - vm_compute. apply not_elem_of_nil.
Defined.

(** X23.  Switching to another priority and back restores the cart, the
    priority and the checked keys, in every state whose checked keys are
    pairwise different keys of the cart. *)
Theorem switchPriority_round_trip (q : Priority) (st : SearchState) :
  consistent st → q ≠ currentPriority st →
  cart (switchPriority (currentPriority st) (switchPriority q st)) = cart st
  ∧ currentPriority (switchPriority (currentPriority st) (switchPriority q st))
    = currentPriority st
  ∧ timetableChecked (switchPriority (currentPriority st) (switchPriority q st))
    = timetableChecked st.
Proof.
  intros Hc Hq.
  assert (E : switchPriority q st
              = mkState (cart st) q (withCurrent st)
                  (timetableCheckedFromSaved (withCurrent st q) (cart st))).
  { unfold switchPriority. by rewrite decide_False by assumption. }
  rewrite E. unfold switchPriority. cbn [currentPriority].
  rewrite decide_False by congruence.
  cbn [cart currentPriority timetableChecked savedTimetables].
  split; [reflexivity |]. split; [reflexivity |].
  unfold withCurrent at 1. cbn [currentPriority savedTimetables timetableChecked].
  rewrite decide_False by congruence.
  unfold withCurrent. rewrite decide_True by reflexivity.
  by apply timetableCheckedFromSaved_fixed.
Qed.

Lemma switchPriority_round_trip_witness :
  timetableChecked
    (switchPriority P1 (switchPriority P3 (toggleCart courseA (initialState [] P1 (λ _, [])))))
  = timetableChecked (toggleCart courseA (initialState [] P1 (λ _, []))).
Proof.
  apply (switchPriority_round_trip P3 (toggleCart courseA (initialState [] P1 (λ _, [])))).
  - assert (E : timetableChecked (toggleCart courseA (initialState [] P1 (λ _, [])))
                = [entryKey courseA]) by reflexivity.
    split; rewrite E.
    + apply NoDup_singleton.
    + intros k Hk. rewrite list_elem_of_singleton in Hk. exists courseA.
      split; [left | by symmetry].
  - discriminate.
Defined.

(** X24.  Switching to the priority [q] leaves the cart as it is and, in what
    is written to the storage, changes no table but that of [q], which is
    reduced to the keys of the cart, each once. *)
Theorem switchPriority_frame (q : Priority) (st : SearchState) :
  consistent st →
  cart (switchPriority q st) = cart st
  ∧ currentPriority (switchPriority q st) = q
  ∧ (∀ p, p ≠ q → toSave (switchPriority q st) p = toSave st p)
  ∧ toSave (switchPriority q st) q
    = timetableCheckedFromSaved (toSave st q) (cart st).
Proof.
  intros Hc. unfold switchPriority.
  destruct (decide (q = currentPriority st)) as [-> | Hq].
  - split; [reflexivity |]. split; [reflexivity |]. split; [reflexivity |].
    unfold toSave, withCurrent. rewrite decide_True by reflexivity.
    symmetry. by apply timetableCheckedFromSaved_fixed.
  - cbn [cart currentPriority]. split; [reflexivity |]. split; [reflexivity |].
    unfold toSave. split.
    + intros p Hp. unfold withCurrent at 1.
      cbn [currentPriority savedTimetables timetableChecked].
      by rewrite decide_False by assumption.
    + unfold withCurrent at 1.
      cbn [currentPriority savedTimetables timetableChecked].
      by rewrite decide_True by reflexivity.
Qed.

Lemma switchPriority_frame_witness :
  toSave (switchPriority P2 (toggleCart courseA (initialState [] P1 (λ _, [])))) P1
  = toSave (toggleCart courseA (initialState [] P1 (λ _, []))) P1.
Proof.
  destruct (switchPriority_frame P2 (toggleCart courseA (initialState [] P1 (λ _, []))))
    as (_ & _ & H & _).
  - assert (E : timetableChecked (toggleCart courseA (initialState [] P1 (λ _, [])))
                = [entryKey courseA]) by reflexivity.
    split; rewrite E.
    + apply NoDup_singleton.
    + intros k Hk. rewrite list_elem_of_singleton in Hk. exists courseA.
      split; [left | by symmetry].
  - apply H. discriminate.
Defined.

(** ** Entries added by hand *)

Section CustomFacts.

Lemma trimStart_fixed s :
  match s with [] => True | c :: _ => isWhiteSpace c = false end →
  trimStart s = s.
Proof. destruct s as [| c r]; [reflexivity |]. intros H. cbn. by rewrite H. Qed.

Lemma trimStart_head s :
  match trimStart s with [] => True | c :: _ => isWhiteSpace c = false end.
Proof.
  induction s as [| c r IH]; [exact I |]. cbn.
  destruct (isWhiteSpace c) eqn:E; [exact IH | exact E].
Qed.

Lemma trimStart_idempotent s : trimStart (trimStart s) = trimStart s.
Proof. apply trimStart_fixed, trimStart_head. Qed.

(** What [trimEnd] returns is a prefix of its argument. *)
Lemma trimEnd_prefix s : ∃ w, s = trimEnd s ++ w.
Proof.
  unfold trimEnd. destruct (trimStart_split (rev s)) as (w & _ & E).
  exists (rev w). rewrite <- rev_app_distr, <- E. by rewrite rev_involutive.
Qed.

Lemma trim_head s :
  match trim s with [] => True | c :: _ => isWhiteSpace c = false end.
Proof.
  unfold trim. pose proof (trimStart_head s) as H.
  destruct (trimEnd_prefix (trimStart s)) as (w & E).
  destruct (trimEnd (trimStart s)) as [| c r]; [exact I |].
  rewrite E in H. exact H.
Qed.

Lemma trim_idempotent s : trim (trim s) = trim s.
Proof.
  unfold trim at 1. rewrite (trimStart_fixed (trim s) (trim_head s)).
  unfold trim, trimEnd. by rewrite rev_involutive, trimStart_idempotent.
Qed.

End CustomFacts.

(** X25.  Adding an entry by hand.  With a title that is blank nothing
    changes.  Otherwise one entry is put at the end of the cart: it is
    recognised by [isCustomEntry], it carries the trimmed title, schedule and
    credits, and it is on the timetable at once. *)
Theorem addCustomEntry_adds_custom (unique title time credits : list N)
    (st : SearchState) :
  (trim title = [] → addCustomEntry unique title time credits st = st)
  ∧ (trim title ≠ [] →
     ∃ e, cart (addCustomEntry unique title time credits st) = cart st ++ [e]
       ∧ isCustomEntry e = true
       ∧ 과목명 e = trim title ∧ 강의시간 e = trim time ∧ 학점 e = trim credits
       ∧ e ∈ entriesOnTimetable (addCustomEntry unique title time credits st)).
Proof.
  unfold addCustomEntry. split; intros Ht.
  - by rewrite bool_decide_true.
  - rewrite bool_decide_false by assumption.
    exists (createCustomEntry unique (trim title) time credits).
    cbn [cart]. split; [reflexivity |]. split; [reflexivity |].
    split; [apply trim_idempotent |]. split; [reflexivity |].
    split; [reflexivity |].
    unfold entriesOnTimetable. cbn [cart timetableChecked].
    rewrite list_elem_of_In, filter_In, <- list_elem_of_In. split.
    + apply elem_of_app. right. left.
    + unfold setHas. apply bool_decide_eq_true, setAddKey_elem. by right.
Qed.
